(** * RAG-LLM: the two-stage retriever, the prompt and the answer extraction

    A shallow embedding of the class [RAGLLM] of
    [RAG-LLM_Example1_v3.ipynb] (methods [__init__] and
    [generate_answer]) together with the Python, numpy and pandas
    operations these two methods call.

    Conventions.
    - A Python [str] is a [string]; a [list] or a one-dimensional array is
      a [list]; indices are [nat].
    - A call that can raise returns a [result]; the exceptions that the
      modelled operations raise are [ValueError] and [IndexError].
    - The sentence-embedding model, the similarity kernel and the text
      generator are collaborators of the class: they are the fields of
      the interface [Models]. *)

From Stdlib Require Import Reals Lra Ascii String.
From stdpp Require Import base option list gmap strings.

(** ** Exceptions *)

Inductive exn : Type :=
| ValueError
| IndexError.

Inductive result (A : Type) : Type :=
| Ok (a : A)
| Raise (e : exn).

Arguments Ok {A} a.
Arguments Raise {A} e.

#[global] Instance result_ret : MRet result := λ A a, Ok a.

#[global] Instance result_bind : MBind result := λ A B k r,
  match r with
  | Ok a => k a
  | Raise e => Raise e
  end.

Definition raises {A : Type} (r : result A) : Prop := ∃ e, r = Raise e.

(** ** Python strings *)

Module Py.

(** The one-character string ["\n"]. *)
Definition nl : string := String "010"%char EmptyString.

(** [s[:n]] *)
Fixpoint slice_to (n : nat) (s : string) : string :=
  match n, s with
  | S n', String c s' => String c (slice_to n' s')
  | _, _ => EmptyString
  end.

(** [s[n:]] *)
Fixpoint slice_from (n : nat) (s : string) : string :=
  match n, s with
  | S n', String _ s' => slice_from n' s'
  | _, _ => s
  end.

(** [s.find(sep)]: the index of the first occurrence of [sep] in [s];
    [None] stands for Python's [-1]. *)
Fixpoint find (sep s : string) : option nat :=
  if String.prefix sep s then Some 0
  else match s with
       | EmptyString => None
       | String _ s' => S <$> find sep s'
       end.

(** The loop of [str.split(sep)]: cut at the first occurrence of [sep],
    continue behind it.  Every round consumes at least one character, so
    [String.length s] rounds are enough ([split_loop_fuel]). *)
Fixpoint split_loop (fuel : nat) (sep s : string) : list string :=
  match find sep s with
  | None => [s]
  | Some pos =>
      match fuel with
      | 0 => [s]
      | S fuel' =>
          slice_to pos s
            :: split_loop fuel' sep (slice_from (pos + String.length sep) s)
      end
  end.

(** [s.split(sep)]; an empty separator is a [ValueError]. *)
Definition split (sep s : string) : result (list string) :=
  match sep with
  | EmptyString => Raise ValueError
  | _ => Ok (split_loop (String.length s) sep s)
  end.

(** [sep.join(l)] *)
Fixpoint join (sep : string) (l : list string) : string :=
  match l with
  | [] => EmptyString
  | [x] => x
  | x :: l' => x +:+ sep +:+ join sep l'
  end.

(** [l[i]] for [0 <= i]. *)
Definition getitem {A : Type} (l : list A) (i : nat) : result A :=
  match l !! i with
  | Some x => Ok x
  | None => Raise IndexError
  end.

(** [l[-1]] *)
Definition getitem_last {A : Type} (l : list A) : result A :=
  match last l with
  | Some x => Ok x
  | None => Raise IndexError
  end.

(** A formatted string literal: literal text and replacement fields (of
    type [str], so that formatting a field is the identity). *)
Inductive fpart : Type :=
| Lit (text : string)
| Field (value : string).

Definition fpart_str (p : fpart) : string :=
  match p with
  | Lit text => text
  | Field value => value
  end.

Definition fstring (parts : list fpart) : string :=
  foldr (λ p acc, fpart_str p +:+ acc) EmptyString parts.

(** [sep in s] *)
Definition contains (sep s : string) : Prop :=
  ∃ pre post, s = pre +:+ sep +:+ post.

End Py.

(** ** Step 4 of [generate_answer]: the prompt and the answer *)

(** [f"Context: {best_context}\n\nQuestion: {user_question}\nAnswer:"] *)
Definition prompt (best_context user_question : string) : string :=
  Py.fstring
    [ Py.Lit "Context: "; Py.Field best_context;
      Py.Lit (Py.nl +:+ Py.nl +:+ "Question: "); Py.Field user_question;
      Py.Lit (Py.nl +:+ "Answer:") ].

(** [answer_text.split("Answer: ")[-1]] *)
Definition answer (answer_text : string) : result string :=
  segments ← Py.split "Answer: " answer_text;
  Py.getitem_last segments.

(** ** The round trip of the spec on a prompt *)

(** The text of [s] strictly after the first occurrence of [a] and
    strictly before the first occurrence of [b] that follows it. *)
Definition between (a b s : string) : option string :=
  i ← Py.find a s;
  let rest := Py.slice_from (i + String.length a) s in
  j ← Py.find b rest;
  Some (Py.slice_to j rest).

(** The literal ["\n\nQuestion:"]. *)
Definition question_marker : string :=
  Eval vm_compute in Py.nl +:+ Py.nl +:+ "Question:".

(** The passage that the spec reads back from a prompt: what stands
    between ["Context: "] and ["\n\nQuestion:"]. *)
Definition spec_passage_of_prompt (p : string) : option string :=
  between "Context: " question_marker p.

(** ** The collaborators of the class *)

(** The sentence transformer [st_model], [sklearn]'s kernel and the
    text-generation pipeline.  [encode t] is the row that
    [st_model.encode] returns for the text [t] (the call is batched and
    order preserving, so [st_model.encode(l)] is [encode <$> l]);
    [cosine_similarity a b] is the entry of the similarity matrix for the
    rows [a] and [b]; [leb] is [<=] on scores; [generator p] is
    [self.generator(p, max_length=300)[0]['generated_text']]. *)
Class Models : Type := {
  Vec : Type;
  Score : Type;
  encode : string → Vec;
  cosine_similarity : Vec → Vec → Score;
  leb : Score → Score → bool;
  generator : string → string
}.

(** ** numpy and pandas *)

Module Np.

(** The scan of [np.argmax]: [best] is the largest score seen so far,
    [best_i] its index and [i] the index of the head of [l]; a later
    score replaces [best] only when it is not [<= best]. *)
Fixpoint argmax_scan `{Models} (best : Score) (best_i i : nat)
    (l : list Score) : nat :=
  match l with
  | [] => best_i
  | x :: l' =>
      if leb x best then argmax_scan best best_i (S i) l'
      else argmax_scan x i (S i) l'
  end.

(** [np.argmax(l)]; the argmax of an empty sequence is a [ValueError]. *)
Definition argmax `{Models} (l : list Score) : result nat :=
  match l with
  | [] => Raise ValueError
  | x :: l' => Ok (argmax_scan x 0 1 l')
  end.

End Np.

Module Pairwise.

(** [cosine_similarity(x, Y)] for a single row [x]: the row of the scores
    of [x] against the rows of [Y].  [sklearn] validates its arguments
    first and raises [ValueError] when [Y] has no row. *)
Definition cosine_similarity `{Models} (x : Vec) (Y : list Vec)
    : result (list Score) :=
  match Y with
  | [] => Raise ValueError
  | _ => Ok (cosine_similarity x <$> Y)
  end.

End Pairwise.

Module Pd.

(** A row of the data frame [df], with its columns ['topic'] and
    ['context']. *)
Record row : Type := Row { topic : string; context : string }.

(** [Series.unique()]: the distinct values in order of appearance;
    [seen] is the hash table of the values already emitted. *)
Fixpoint unique_go (seen : gset string) (l : list string) : list string :=
  match l with
  | [] => []
  | x :: l' =>
      if decide (x ∈ seen) then unique_go seen l'
      else x :: unique_go ({[x]} ∪ seen) l'
  end.

Definition unique (l : list string) : list string := unique_go ∅ l.

End Pd.

(** ** The class [RAGLLM] *)

Module RAGLLM.

(** The attributes of an instance that [generate_answer] reads. *)
Record self `{Models} : Type := Self {
  external_data : list Pd.row;
  titles : list string;
  title_embeddings : list Vec
}.

(** [RAGLLM(external_data)] *)
Definition __init__ `{Models} (external_data : list Pd.row) : result self :=
  let titles := Pd.unique (Pd.topic <$> external_data) in
  let title_embeddings := encode <$> titles in
  Ok (Self _ external_data titles title_embeddings).

(** Step 2:
    [external_data[external_data['topic'] == best_title]['context'].tolist()] *)
Definition topic_contexts (external_data : list Pd.row)
    (best_title : string) : list string :=
  Pd.context <$> filter (λ r, Pd.topic r = best_title) external_data.

(** Steps 1 to 3 of [generate_answer]: the best title and the best
    context, which the method prints and then uses for the prompt. *)
Definition retrieve `{Models} (s : self) (user_question : string)
    : result (string * string) :=
  let question_embedding := encode user_question in
  title_similarities ←
    Pairwise.cosine_similarity question_embedding (title_embeddings s);
  best_title_index ← Np.argmax title_similarities;
  best_title ← Py.getitem (titles s) best_title_index;
  let topic_contexts := topic_contexts (external_data s) best_title in
  let context_embeddings := encode <$> topic_contexts in
  context_similarities ←
    Pairwise.cosine_similarity question_embedding context_embeddings;
  best_context_index ← Np.argmax context_similarities;
  best_context ← Py.getitem topic_contexts best_context_index;
  Ok (best_title, best_context).

Definition generate_answer `{Models} (s : self) (user_question : string)
    : result string :=
  '(best_title, best_context) ← retrieve s user_question;
  let prompt := prompt best_context user_question in
  let answer_text := generator prompt in
  answer answer_text.

End RAGLLM.

(** ** The cells around the class *)

Module Squad.

(** An entry of [squad_data['data']] and one of its paragraphs, with the
    keys that the flattening cell reads. *)
Record paragraph : Type := Paragraph { context : string }.

Record article : Type := Article {
  title : string;
  paragraphs : list paragraph
}.

(** The dictionary [data] with its two lists. *)
Record columns : Type := Columns {
  col_topic : list string;
  col_context : list string
}.

(** [for i in range(n): body], counting from [i]. *)
Fixpoint for_range {St : Type} (n i : nat) (body : nat → St → result St)
    (st : St) : result St :=
  match n with
  | 0 => Ok st
  | S n' => st' ← body i st; for_range n' (S i) body st'
  end.

(** The body of the inner loop: the two [append] calls for the
    paragraph [j] of the article [i]. *)
Definition append_row (squad_data : list article) (i j : nat)
    (data : columns) : result columns :=
  a ← Py.getitem squad_data i;
  let topic := col_topic data ++ [title a] in
  a' ← Py.getitem squad_data i;
  p ← Py.getitem (paragraphs a') j;
  Ok (Columns topic (col_context data ++ [context p])).

(** The body of the outer loop. *)
Definition flatten_article (squad_data : list article) (i : nat)
    (data : columns) : result columns :=
  a ← Py.getitem squad_data i;
  let n_paragraphs := length (paragraphs a) in
  for_range n_paragraphs 0 (append_row squad_data i) data.

(** [pd.DataFrame(data)]: columns of different lengths are a
    [ValueError]. *)
Definition DataFrame (data : columns) : result (list Pd.row) :=
  if decide (length (col_topic data) = length (col_context data))
  then Ok (zip_with Pd.Row (col_topic data) (col_context data))
  else Raise ValueError.

(** The flattening cell; [n_titles] is the global that an earlier cell
    has set. *)
Definition flatten (n_titles : nat) (squad_data : list article)
    : result (list Pd.row) :=
  data ← for_range n_titles 0 (flatten_article squad_data) (Columns [] []);
  DataFrame data.

(** One row per paragraph, article after article. *)
Definition rows (squad_data : list article) : list Pd.row :=
  a ← squad_data; p ← paragraphs a; [Pd.Row (title a) (context p)].

End Squad.


(** ** Vocabulary of the statements *)

(** The scores of the texts [texts] against a question: one row of the
    similarity matrix. *)
Definition scores `{Models} (user_question : string) (texts : list string)
    : list Score :=
  cosine_similarity (encode user_question) <$> (encode <$> texts).

(** The score of one text against a question. *)
Definition score `{Models} (user_question text : string) : Score :=
  cosine_similarity (encode user_question) (encode text).

(** [i] is the index of the first maximum of [l]: the score at [i] is
    above every score of [l] and no earlier score reaches it. *)
Definition first_max `{Models} (l : list Score) (i : nat) : Prop :=
  ∃ x, l !! i = Some x ∧
       (∀ j y, l !! j = Some y → leb y x = true) ∧
       (∀ j y, j < i → l !! j = Some y → leb x y = false).

(** The comparison of scores is a total preorder, as [<=] is on numbers
    that are not NaN. *)
Class ScoreOrder (M : Models) : Prop := {
  leb_total : ∀ x y : Score, leb x y = true ∨ leb y x = true;
  leb_trans : ∀ x y z : Score, leb x y = true → leb y z = true → leb x z = true
}.

(** ** The cosine kernel over the real numbers *)

Module Sklearn.

#[global] Instance R_eq_dec : EqDecision R := Req_dec_T.
#[global] Instance Rle_rel_dec : RelDecision Rle := Rle_dec.

(** Modelled from the spec: the [dot] of the formula, the sum of the
    products of the components. *)
Definition dot (a b : list R) : R := foldr Rplus 0%R (zip_with Rmult a b).

(** Modelled from the spec: the [norm] of the formula, the Euclidean
    norm. *)
Definition norm (a : list R) : R := sqrt (dot a a).

(** Modelled from the spec: [sklearn.metrics.pairwise.cosine_similarity],
    which [generate_answer] imports and calls, is not part of the
    repository.  The spec gives [sim(a,b) = dot(a,b) / (norm(a) * norm(b))]
    with [sim = 0] when either vector has zero norm; the floating-point
    numbers of the program are idealised as real numbers. *)
Definition cosine_similarity (a b : list R) : R :=
  if decide (norm a = 0%R ∨ norm b = 0%R) then 0%R
  else (dot a b / (norm a * norm b))%R.

Definition Rleb (x y : R) : bool := bool_decide (x <= y)%R.

(** The class over real embeddings, for any embedding model and any
    generator. *)
Definition models (encode : string → list R) (generator : string → string)
    : Models :=
  Build_Models (list R) R encode cosine_similarity Rleb generator.

End Sklearn.

(** ** A small executable instance *)

Module Demo.

(** Integer scores: a text is embedded as its length and two embeddings
    are the more similar the closer they are.  The generator echoes the
    prompt and appends an answer. *)
Definition models : Models :=
  {| Vec := Z; Score := Z;
     encode := λ t, Z.of_nat (String.length t);
     cosine_similarity := λ a b, (- Z.abs (a - b))%Z;
     leb := Z.leb;
     generator := λ p, p +:+ " 42" |}.

(** The same with a generator that returns the prompt and nothing
    more. *)
Definition echo_models : Models :=
  {| Vec := Z; Score := Z;
     encode := λ t, Z.of_nat (String.length t);
     cosine_similarity := λ a b, (- Z.abs (a - b))%Z;
     leb := Z.leb;
     generator := λ p, p |}.

Definition df : list Pd.row :=
  [ Pd.Row "Florida" "Florida means flowery land";
    Pd.Row "Alaska" "Alaska is the largest state";
    Pd.Row "Florida" "Florida is a state";
    Pd.Row "Alaska" "Juneau" ].

(** [df] with other contexts under ["Florida"]. *)
Definition df_other : list Pd.row :=
  [ Pd.Row "Florida" "Tallahassee";
    Pd.Row "Alaska" "Alaska is the largest state";
    Pd.Row "Florida" "Miami";
    Pd.Row "Alaska" "Juneau" ].

(** A data frame with a single topic. *)
Definition df_single : list Pd.row :=
  [ Pd.Row "Alaska" "Alaska is the largest state";
    Pd.Row "Alaska" "Juneau" ].

Definition squad_data : list Squad.article :=
  [ Squad.Article "Florida"
      [ Squad.Paragraph "Florida means flowery land";
        Squad.Paragraph "Florida is a state" ];
    Squad.Article "Empty" [];
    Squad.Article "Alaska" [ Squad.Paragraph "Alaska is the largest state" ] ].

(** A passage that itself contains a blank line and ["Question:"]. *)
Definition tricky_passage : string :=
  "a" +:+ Py.nl +:+ Py.nl +:+ "Question: b".



End Demo.

(** * Properties *)

(** ** Strings: slices, [find] and [split] *)

Lemma str_app_cons (x : ascii) (a b : string) :
  String x a +:+ b = String x (a +:+ b).
Proof. reflexivity. Qed.

Lemma str_app_nil_l (b : string) : EmptyString +:+ b = b.
Proof. reflexivity. Qed.

Lemma str_app_assoc (a b c : string) : (a +:+ b) +:+ c = a +:+ b +:+ c.
Proof.
  induction a as [|x a IH]; [done|]. by rewrite !str_app_cons, IH.
Qed.

Lemma str_app_nil_r (a : string) : a +:+ EmptyString = a.
Proof. induction a as [|x a IH]; [done|]. by rewrite str_app_cons, IH. Qed.

Lemma str_length_app (a b : string) :
  String.length (a +:+ b) = String.length a + String.length b.
Proof.
  induction a as [|x a IH]; [done|]. rewrite str_app_cons. simpl. by rewrite IH.
Qed.

Lemma slice_to_from (n : nat) (s : string) :
  Py.slice_to n s +:+ Py.slice_from n s = s.
Proof.
  revert s; induction n as [|n IH]; intros [|c s]; simpl; try done.
  by rewrite str_app_cons, IH.
Qed.

Lemma slice_from_add (n m : nat) (s : string) :
  Py.slice_from (n + m) s = Py.slice_from m (Py.slice_from n s).
Proof.
  revert s; induction n as [|n IH]; intros s; simpl; [done|].
  destruct s as [|c s]; [by destruct m | apply IH].
Qed.

Lemma slice_from_length (n : nat) (s : string) :
  String.length (Py.slice_from n s) = String.length s - n.
Proof.
  revert s; induction n as [|n IH]; intros [|c s]; simpl; try done.
Qed.

Lemma slice_from_app (a b : string) :
  Py.slice_from (String.length a) (a +:+ b) = b.
Proof.
  induction a as [|x a IH]; [by destruct b|]. by rewrite str_app_cons.
Qed.

Lemma slice_to_app (a b : string) :
  Py.slice_to (String.length a) (a +:+ b) = a.
Proof.
  induction a as [|x a IH]; [by destruct b|].
  rewrite str_app_cons. simpl. by rewrite IH.
Qed.

Lemma prefix_nil (s : string) : String.prefix EmptyString s = true.
Proof. by destruct s. Qed.

Lemma prefix_app (sep r : string) : String.prefix sep (sep +:+ r) = true.
Proof.
  induction sep as [|x sep IH]; [apply prefix_nil|]. rewrite str_app_cons. simpl.
  by destruct (ascii_dec x x).
Qed.

Lemma prefix_inv (sep s : string) :
  String.prefix sep s = true →
  s = sep +:+ Py.slice_from (String.length sep) s.
Proof.
  revert s; induction sep as [|x sep IH]; intros s; simpl.
  - intros _. rewrite str_app_nil_l. by destruct s.
  - destruct s as [|c s]; simpl; [done|].
    destruct (ascii_dec x c) as [->|]; [|done].
    intros Hp. by rewrite str_app_cons, <- (IH _ Hp).
Qed.

Lemma prefix_slice_to (sep s : string) (n : nat) :
  String.prefix sep (Py.slice_to n s) = true → String.prefix sep s = true.
Proof.
  revert s n; induction sep as [|x sep IH]; intros s n.
  - intros _. apply prefix_nil.
  - destruct n as [|n], s as [|c s]; simpl; try done.
    destruct (ascii_dec x c); [apply IH | done].
Qed.

Lemma prefix_length (sep s : string) :
  String.prefix sep s = true → String.length sep ≤ String.length s.
Proof.
  intros Hp. rewrite (prefix_inv _ _ Hp), str_length_app. lia.
Qed.

Lemma find_nil (sep : string) :
  Py.find sep EmptyString = if String.prefix sep EmptyString then Some 0 else None.
Proof. reflexivity. Qed.

Lemma find_cons (sep : string) (c : ascii) (s : string) :
  Py.find sep (String c s)
  = if String.prefix sep (String c s) then Some 0 else S <$> Py.find sep s.
Proof. reflexivity. Qed.

(** [find] returns an occurrence, and the leftmost one. *)
Lemma find_Some (sep s : string) (pos : nat) :
  Py.find sep s = Some pos →
  String.prefix sep (Py.slice_from pos s) = true ∧
  pos + String.length sep ≤ String.length s ∧
  ∀ j, j < pos → String.prefix sep (Py.slice_from j s) = false.
Proof.
  revert pos; induction s as [|c s IH]; intros pos.
  - rewrite find_nil. destruct (String.prefix sep EmptyString) eqn:Hp; [|done].
    intros [= <-]. split_and!; [done | | lia].
    apply prefix_length in Hp. simpl in *. lia.
  - rewrite find_cons. destruct (String.prefix sep (String c s)) eqn:Hp.
    + intros [= <-]. split_and!; [done | | lia].
      apply prefix_length in Hp. simpl in *. lia.
    + destruct (Py.find sep s) as [k|] eqn:Hf; [|done].
      intros [= <-]. destruct (IH k eq_refl) as (H1 & H2 & H3).
      split_and!; [done | simpl; lia |].
      intros [|j] Hj; [done | apply H3; lia].
Qed.

Lemma find_None (sep s : string) :
  Py.find sep s = None → ∀ j, String.prefix sep (Py.slice_from j s) = false.
Proof.
  induction s as [|c s IH].
  - rewrite find_nil. destruct (String.prefix sep EmptyString) eqn:Hp; [done|].
    intros _ [|j]; done.
  - rewrite find_cons. destruct (String.prefix sep (String c s)) eqn:Hp; [done|].
    destruct (Py.find sep s) eqn:Hf; [done|].
    intros _ [|j]; [done | by apply IH].
Qed.

Lemma find_is_Some (sep s : string) (j : nat) :
  String.prefix sep (Py.slice_from j s) = true → is_Some (Py.find sep s).
Proof.
  intros Hp. destruct (Py.find sep s) eqn:Hf; [by eexists|].
  by rewrite (find_None _ _ Hf j) in Hp.
Qed.

Lemma find_None_iff (sep s : string) :
  Py.find sep s = None ↔ ¬ Py.contains sep s.
Proof.
  split.
  - intros Hf (pre & post & ->).
    pose proof (find_None _ _ Hf (String.length pre)) as Hp.
    by rewrite slice_from_app, prefix_app in Hp.
  - intros Hn. destruct (Py.find sep s) as [pos|] eqn:Hf; [|done].
    destruct Hn. apply find_Some in Hf as (Hp & _ & _).
    exists (Py.slice_to pos s), (Py.slice_from (String.length sep) (Py.slice_from pos s)).
    by rewrite <- (prefix_inv _ _ Hp), slice_to_from.
Qed.

Lemma find_slice_to (sep s : string) (pos : nat) :
  sep ≠ EmptyString → Py.find sep s = Some pos → Py.find sep (Py.slice_to pos s) = None.
Proof.
  intros Hsep Hf. destruct (Py.find sep (Py.slice_to pos s)) as [k|] eqn:Hk; [|done].
  exfalso. apply find_Some in Hk as (Hp & Hlen & _).
  apply find_Some in Hf as (_ & _ & Hmin).
  assert (String.length (Py.slice_to pos s) ≤ pos) as Hl.
  { clear. revert s; induction pos as [|n IH]; intros [|c s]; simpl; try lia.
    specialize (IH s). lia. }
  assert (0 < String.length sep) by (destruct sep; [done | simpl; lia]).
  assert (k < pos) as Hlt by lia.
  specialize (Hmin k Hlt).
  assert (Py.slice_from k (Py.slice_to pos s)
          = Py.slice_to (pos - k) (Py.slice_from k s)) as Heq.
  { clear. revert s k; induction pos as [|n IH]; intros s k.
    - by destruct k.
    - destruct s as [|c s], k as [|k]; simpl; try done.
      by destruct (n - k). }
  rewrite Heq in Hp. apply prefix_slice_to in Hp. congruence.
Qed.

Lemma find_prefix (sep s : string) :
  String.prefix sep s = true → Py.find sep s = Some 0.
Proof.
  intros Hp. destruct s; [rewrite find_nil | rewrite find_cons]; by rewrite Hp.
Qed.

Lemma split_loop_0 (sep s : string) : Py.split_loop 0 sep s = [s].
Proof. unfold Py.split_loop. by destruct (Py.find sep s). Qed.

Lemma split_loop_S (n : nat) (sep s : string) :
  Py.split_loop (S n) sep s
  = match Py.find sep s with
    | None => [s]
    | Some pos =>
        Py.slice_to pos s
          :: Py.split_loop n sep (Py.slice_from (pos + String.length sep) s)
    end.
Proof. reflexivity. Qed.

Lemma str_length_pos (sep : string) : sep ≠ EmptyString → 0 < String.length sep.
Proof. destruct sep; [done | simpl; lia]. Qed.

(** The rounds of [split] never run out: any bound on the length of the
    string gives the same segments. *)
Lemma split_loop_fuel (sep s : string) (n m : nat) :
  sep ≠ EmptyString → String.length s ≤ n → String.length s ≤ m →
  Py.split_loop n sep s = Py.split_loop m sep s.
Proof.
  intros Hsep%str_length_pos. revert s m.
  induction n as [|n IH]; intros s m Hn Hm.
  - rewrite split_loop_0. destruct m as [|m]; [by rewrite split_loop_0|].
    rewrite split_loop_S. destruct (Py.find sep s) as [pos|] eqn:Hf; [|done].
    apply find_Some in Hf as (_ & Hlen & _). lia.
  - rewrite split_loop_S. destruct (Py.find sep s) as [pos|] eqn:Hf.
    + pose proof Hf as (_ & Hlen & _)%find_Some.
      destruct m as [|m]; [lia|]. rewrite split_loop_S, Hf. f_equal.
      apply IH; rewrite slice_from_length; lia.
    + destruct m as [|m]; [by rewrite split_loop_0|].
      by rewrite split_loop_S, Hf.
Qed.

Lemma split_loop_last (n : nat) (sep s : string) :
  is_Some (last (Py.split_loop n sep s)).
Proof.
  revert s; induction n as [|n IH]; intros s.
  - rewrite split_loop_0. by eexists.
  - rewrite split_loop_S. destruct (Py.find sep s) as [pos|]; [|by eexists].
    rewrite last_cons. destruct (IH (Py.slice_from (pos + String.length sep) s))
      as [x ->]. by eexists.
Qed.

(** Joining the segments with the separator gives the string back. *)
Lemma split_loop_join (n : nat) (sep s : string) :
  Py.join sep (Py.split_loop n sep s) = s.
Proof.
  revert s; induction n as [|n IH]; intros s.
  - by rewrite split_loop_0.
  - rewrite split_loop_S. destruct (Py.find sep s) as [pos|] eqn:Hf; [|done].
    apply find_Some in Hf as (Hp & _ & _).
    set (rest := Py.slice_from (pos + String.length sep) s).
    pose proof (IH rest) as Hj. pose proof (split_loop_last n sep rest) as [x Hx].
    destruct (Py.split_loop n sep rest) as [|y l] eqn:Hl; [done|].
    change (Py.join sep (Py.slice_to pos s :: y :: l))
      with (Py.slice_to pos s +:+ sep +:+ Py.join sep (y :: l)).
    rewrite Hj. unfold rest. rewrite slice_from_add.
    by rewrite <- (prefix_inv _ _ Hp), slice_to_from.
Qed.

(** No segment contains the separator. *)
Lemma split_loop_sep_free (n : nat) (sep s seg : string) :
  sep ≠ EmptyString → String.length s ≤ n →
  seg ∈ Py.split_loop n sep s → Py.find sep seg = None.
Proof.
  intros Hsep. revert s; induction n as [|n IH]; intros s Hn.
  - rewrite split_loop_0. intros ->%list_elem_of_singleton.
    destruct (Py.find sep s) as [pos|] eqn:Hf; [|done].
    apply find_Some in Hf as (_ & Hlen & _).
    apply str_length_pos in Hsep. lia.
  - rewrite split_loop_S. destruct (Py.find sep s) as [pos|] eqn:Hf.
    + intros [->|Hin]%elem_of_cons; [by apply find_slice_to|].
      apply (IH _) in Hin; [done|].
      apply find_Some in Hf as (_ & Hlen & _).
      apply str_length_pos in Hsep. rewrite slice_from_length. lia.
    + by intros ->%list_elem_of_singleton.
Qed.

(** ** The prompt *)

(** C3.  For all strings [passage] and [question] the prompt is exactly
    ["Context: "], the passage, a blank line, ["Question: "], the
    question, a line break and the marker ["Answer:"].  The prompt is a
    function of its two arguments alone: it reads no state and calls no
    collaborator. *)
Theorem prompt_template (passage question : string) :
  prompt passage question
  = "Context: " +:+ passage +:+ Py.nl +:+ Py.nl +:+ "Question: "
      +:+ question +:+ Py.nl +:+ "Answer:".
Proof.
  unfold prompt, Py.fstring. simpl.
  by rewrite str_app_nil_r, !str_app_assoc.
Qed.

(** ** The answer *)

Lemma split_Ok (sep s : string) :
  sep ≠ EmptyString → Py.split sep s = Ok (Py.split_loop (String.length s) sep s).
Proof. by destruct sep. Qed.

(** The answer is always defined: it is the last round of the split. *)
Lemma answer_Ok (raw_output : string) :
  ∃ a,
    last (Py.split_loop (String.length raw_output) "Answer: " raw_output)
      = Some a ∧
    answer raw_output = Ok a.
Proof.
  destruct (split_loop_last (String.length raw_output) "Answer: " raw_output)
    as [a Ha].
  exists a. split; [done|].
  unfold answer. rewrite split_Ok by done.
  unfold mbind, result_bind, Py.getitem_last. by rewrite Ha.
Qed.

(** C4.  For every string [raw_output] the answer is the last segment of
    [raw_output] split on the literal ["Answer: "]: the split succeeds,
    its segments joined by ["Answer: "] give [raw_output] back, none of
    them contains ["Answer: "], and the answer is the last of them.  When
    [raw_output] does not contain ["Answer: "] the answer is [raw_output]
    itself, and the answer of ["Context...\nAnswer: 42"] is ["42"]. *)
Theorem answer_last_segment (raw_output : string) :
  (∃ segments a,
      Py.split "Answer: " raw_output = Ok segments ∧
      Py.join "Answer: " segments = raw_output ∧
      (∀ seg, seg ∈ segments → ¬ Py.contains "Answer: " seg) ∧
      last segments = Some a ∧
      answer raw_output = Ok a) ∧
  (¬ Py.contains "Answer: " raw_output → answer raw_output = Ok raw_output) ∧
  answer ("Context..." +:+ Py.nl +:+ "Answer: 42") = Ok "42".
Proof.
  assert ("Answer: " ≠ EmptyString) as Hsep by done.
  split_and!.
  - destruct (answer_Ok raw_output) as (a & Ha & Hans).
    exists (Py.split_loop (String.length raw_output) "Answer: " raw_output), a.
    split_and!.
    + by apply split_Ok.
    + apply split_loop_join.
    + intros seg Hin. apply find_None_iff.
      by eapply split_loop_sep_free.
    + done.
    + done.
  - intros Hn%find_None_iff. unfold answer. rewrite split_Ok by done.
    destruct (String.length raw_output);
      [rewrite split_loop_0 | rewrite split_loop_S, Hn]; done.
  - by vm_compute.
Qed.

(** The theorem at a generated text without the marker. *)
Lemma answer_last_segment_witness :
  answer "no marker here" = Ok "no marker here".
Proof.
  apply (answer_last_segment "no marker here").
  apply find_None_iff. reflexivity.
Defined.

(** [split] and [answer] on concrete texts. *)
Example split_examples :
  Py.split "aa" "aaaaa" = Ok [EmptyString; EmptyString; "a"] ∧
  Py.split "ab" "ab1ab2abab"
    = Ok [EmptyString; "1"; "2"; EmptyString; EmptyString] ∧
  Py.split "ab" EmptyString = Ok [EmptyString] ∧
  Py.split EmptyString "ab" = Raise ValueError ∧
  answer "Answer: 1 Answer: 2" = Ok "2" ∧
  answer (prompt "P" "Q") = Ok (prompt "P" "Q") ∧
  answer (prompt "P" "Q" +:+ " yes") = Ok "yes".
Proof. by vm_compute. Qed.

(** ** Reading the passage back from a prompt *)

(** An occurrence of ["\n\nQuestion:"] that starts inside [q] in
    [q +:+ "\n\nQuestion:" +:+ r] lies inside [q]: the marker does not
    overlap a shifted copy of itself. *)
Lemma question_marker_no_overlap (q r t : string) :
  q ≠ EmptyString →
  q +:+ question_marker +:+ r = question_marker +:+ t →
  ∃ t', q = question_marker +:+ t'.
Proof.
  unfold question_marker. intros Hq H.
  do 11 (destruct q as [|? q];
         [ try done; rewrite ?str_app_cons, ?str_app_nil_l in H;
           repeat (injection H as ? H; try done); done
         | rewrite !str_app_cons in H; injection H as -> H ]).
  by exists q.
Qed.

Lemma find_question_marker_app (p r : string) :
  Py.find question_marker p = None →
  Py.find question_marker (p +:+ question_marker +:+ r)
  = Some (String.length p).
Proof.
  induction p as [|c p IH]; intros Hf.
  - rewrite str_app_nil_l. apply find_prefix, prefix_app.
  - rewrite find_cons in Hf.
    destruct (String.prefix question_marker (String c p)) eqn:Hp; [done|].
    destruct (Py.find question_marker p) eqn:Hfp; [done|].
    rewrite str_app_cons, find_cons.
    destruct (String.prefix question_marker
                (String c (p +:+ question_marker +:+ r))) eqn:Hp2.
    + exfalso. apply prefix_inv in Hp2. rewrite <- str_app_cons in Hp2.
      apply question_marker_no_overlap in Hp2 as [t' Ht']; [|done].
      by rewrite Ht', prefix_app in Hp.
    + by rewrite IH.
Qed.

Lemma prompt_marker_form (passage question : string) :
  prompt passage question
  = "Context: " +:+ passage +:+ question_marker +:+ " " +:+ question
      +:+ Py.nl +:+ "Answer:".
Proof.
  unfold prompt, Py.fstring. simpl.
  rewrite str_app_nil_r, !str_app_assoc. reflexivity.
Qed.

(** C9, as the code has it.  For all strings [passage] and [question]
    such that [passage] does not contain the literal ["\n\nQuestion:"],
    the text of the prompt strictly after ["Context: "] and strictly
    before the first ["\n\nQuestion:"] that follows is [passage]. *)
Theorem prompt_roundtrip (passage question : string) :
  ¬ Py.contains question_marker passage →
  spec_passage_of_prompt (prompt passage question) = Some passage.
Proof.
  intros Hf%find_None_iff. rewrite prompt_marker_form.
  unfold spec_passage_of_prompt, between.
  rewrite (find_prefix "Context: " _ (prefix_app _ _)). simpl.
  rewrite !str_app_nil_l, find_question_marker_app by done. simpl.
  by rewrite slice_to_app.
Qed.

Lemma prompt_roundtrip_witness :
  spec_passage_of_prompt (prompt "Alaska is the largest state" "Which state?")
  = Some "Alaska is the largest state".
Proof. apply prompt_roundtrip. apply find_None_iff. reflexivity. Defined.

(** The prompt does not determine the passage: no function reads the
    passage back from every prompt. *)
Lemma prompt_not_invertible :
  ¬ ∃ f : string → string, ∀ passage question,
        f (prompt passage question) = passage.
Proof.
  intros [f Hf].
  pose proof (Hf Demo.tricky_passage "c") as H1.
  pose proof (Hf "a" ("b" +:+ Py.nl +:+ Py.nl +:+ "Question: c")) as H2.
  replace (prompt "a" ("b" +:+ Py.nl +:+ Py.nl +:+ "Question: c"))
    with (prompt Demo.tricky_passage "c") in H2 by (by vm_compute).
  rewrite H1 in H2. by vm_compute in H2.
Qed.

(** C9, as the spec states it, fails: for the passage
    ["a\n\nQuestion: b"] and the question ["c"] the text between the two
    literals is ["a"].  No other way of reading the passage back can do
    better, since the same prompt is built from the passage ["a"] and the
    question ["b\n\nQuestion: c"]. *)
Lemma prompt_roundtrip_counterexample :
  spec_passage_of_prompt (prompt Demo.tricky_passage "c")
    ≠ Some Demo.tricky_passage ∧
  prompt Demo.tricky_passage "c"
    = prompt "a" ("b" +:+ Py.nl +:+ Py.nl +:+ "Question: c") ∧
  Demo.tricky_passage ≠ "a".
Proof. split_and!; [by vm_compute | by vm_compute | by vm_compute]. Qed.

(** ** [np.argmax] *)

Section argmax.
Context `{M : Models}.

Lemma argmax_scan_lt (best : Score) (best_i i : nat) (l : list Score) :
  best_i < i → Np.argmax_scan best best_i i l < i + length l.
Proof.
  revert best best_i i; induction l as [|x l IH]; intros best best_i i Hi.
  - simpl. lia.
  - simpl. destruct (leb x best).
    + specialize (IH best best_i (S i)). lia.
    + specialize (IH x i (S i)). lia.
Qed.

Lemma argmax_Ok (l : list Score) :
  l ≠ [] → ∃ i, Np.argmax l = Ok i ∧ i < length l.
Proof.
  destruct l as [|x l]; [done|]. intros _. eexists; split; [done|].
  pose proof (argmax_scan_lt x 0 1 l). simpl. lia.
Qed.

Lemma first_max_unique (l : list Score) (i j : nat) :
  first_max l i → first_max l j → i = j.
Proof.
  intros (x & Hx & Hmax & Hfst) (y & Hy & Hmax' & Hfst').
  destruct (Nat.lt_total i j) as [Hlt|[->|Hlt]]; [| done |].
  - pose proof (Hfst' i x Hlt Hx). pose proof (Hmax j y Hy). congruence.
  - pose proof (Hfst j y Hlt Hy). pose proof (Hmax' i x Hx). congruence.
Qed.

Context `{!ScoreOrder M}.

Lemma leb_refl (x : Score) : leb x x = true.
Proof. by destruct (leb_total x x). Qed.

(** The invariant of the scan: [best] stands at [best_i] in the part
    [pre] already read, is above all of [pre], and nothing before
    [best_i] reaches it. *)
Lemma argmax_scan_first_max (pre l : list Score) (best : Score) (best_i : nat) :
  pre !! best_i = Some best →
  (∀ j y, pre !! j = Some y → leb y best = true) →
  (∀ j y, j < best_i → pre !! j = Some y → leb best y = false) →
  first_max (pre ++ l) (Np.argmax_scan best best_i (length pre) l).
Proof.
  revert pre best best_i.
  induction l as [|x l IH]; intros pre best best_i Hbest Hmax Hfst.
  - rewrite app_nil_r. by exists best.
  - simpl. rewrite cons_middle, app_assoc.
    replace (S (length pre)) with (length (pre ++ [x]))
      by (rewrite length_app; simpl; lia).
    pose proof (lookup_lt_Some _ _ _ Hbest) as Hlt.
    destruct (leb x best) eqn:Hx.
    + apply IH.
      * by rewrite lookup_app_l.
      * intros j y [Hj|[_ Hj]]%lookup_app_Some; [by eapply Hmax|].
        destruct (j - length pre); simplify_eq/=. done.
      * intros j y Hj Hy. rewrite lookup_app_l in Hy by lia. by eapply Hfst.
    + assert (leb best x = true) as Hbx
        by (destruct (leb_total best x); congruence).
      apply IH.
      * by rewrite lookup_app_r, Nat.sub_diag.
      * intros j y [Hj|[_ Hj]]%lookup_app_Some.
        -- eapply leb_trans; [by eapply Hmax | done].
        -- destruct (j - length pre); simplify_eq/=. apply leb_refl.
      * intros j y Hj Hy. rewrite lookup_app_l in Hy by lia.
        destruct (leb x y) eqn:Hxy; [|done].
        pose proof (leb_trans _ _ _ Hxy (Hmax _ _ Hy)). congruence.
Qed.

(** [np.argmax] returns the index of the first maximum. *)
Lemma argmax_first_max (l : list Score) (i : nat) :
  Np.argmax l = Ok i → first_max l i.
Proof.
  destruct l as [|x l]; [done|]. intros [= <-].
  apply (argmax_scan_first_max [x] l x 0); [done | |].
  - intros [|j] y Hy; simplify_eq/=. apply leb_refl.
  - intros j y Hj. lia.
Qed.

End argmax.

(** ** [Series.unique] *)

Lemma elem_of_unique_go (seen : gset string) (l : list string) (t : string) :
  t ∈ Pd.unique_go seen l ↔ t ∈ l ∧ t ∉ seen.
Proof.
  revert seen; induction l as [|x l IH]; intros seen; simpl.
  - rewrite elem_of_nil. tauto.
  - case_decide as Hx; rewrite ?elem_of_cons, IH, ?elem_of_cons.
    + split; [tauto|]. intros [[->|?] ?]; [done | tauto].
    + rewrite not_elem_of_union, not_elem_of_singleton.
      split; [intros [->|(? & ? & ?)]; tauto|].
      intros [[->|?] ?]; [tauto|].
      destruct (decide (t = x)) as [->|]; tauto.
Qed.

Lemma elem_of_unique (l : list string) (t : string) :
  t ∈ Pd.unique l ↔ t ∈ l.
Proof.
  unfold Pd.unique. rewrite elem_of_unique_go.
  split; [tauto|]. intros ?. split; [done | apply not_elem_of_empty].
Qed.

Lemma NoDup_unique_go (seen : gset string) (l : list string) :
  NoDup (Pd.unique_go seen l).
Proof.
  revert seen; induction l as [|x l IH]; intros seen; simpl.
  - constructor.
  - case_decide; [apply IH|]. constructor; [|apply IH].
    rewrite elem_of_unique_go, not_elem_of_union, not_elem_of_singleton. tauto.
Qed.

Lemma list_find_eq_cons_ne (a x : string) (l : list string) :
  a ≠ x →
  list_find (λ t, t = a) (x :: l)
  = prod_map S Datatypes.id <$> list_find (λ t, t = a) l.
Proof. intros Hne. simpl. by rewrite decide_False by congruence. Qed.

Lemma list_find_eq_elem_of (a : string) (l : list string) :
  a ∈ l → ∃ p, list_find (λ t, t = a) l = Some (p, a).
Proof.
  intros Hin. destruct (list_find_elem_of (λ t, t = a) l a Hin eq_refl)
    as [[p y] Hp].
  pose proof Hp as (_ & -> & _)%list_find_Some. by exists p.
Qed.

(** The order of [unique] is the order of the first occurrences. *)
Lemma unique_go_order (seen : gset string) (l : list string)
    (i j : nat) (a b : string) :
  Pd.unique_go seen l !! i = Some a →
  Pd.unique_go seen l !! j = Some b →
  i < j →
  ∃ p q, list_find (λ t, t = a) l = Some (p, a) ∧
         list_find (λ t, t = b) l = Some (q, b) ∧ p < q.
Proof.
  revert seen i j; induction l as [|x l IH]; intros seen i j Ha Hb Hij;
    [done|]. simpl in Ha, Hb.
  destruct (decide (x ∈ seen)) as [Hx|Hx].
  - destruct (IH _ _ _ Ha Hb Hij) as (p & q & Hp & Hq & Hpq).
    apply list_elem_of_lookup_2, elem_of_unique_go in Ha as [_ Ha].
    apply list_elem_of_lookup_2, elem_of_unique_go in Hb as [_ Hb].
    exists (S p), (S q).
    rewrite !list_find_eq_cons_ne, Hp, Hq by congruence.
    split_and!; [done | done | lia].
  - destruct j as [|j]; [lia|]. simpl in Hb.
    pose proof Hb as [Hbl Hbs]%list_elem_of_lookup_2%elem_of_unique_go.
    rewrite not_elem_of_union, not_elem_of_singleton in Hbs.
    destruct i as [|i]; simpl in Ha.
    + injection Ha as ->.
      destruct (list_find_eq_elem_of b l Hbl) as [q Hq].
      exists 0, (S q). rewrite (list_find_eq_cons_ne b a), Hq by tauto.
      split_and!; [|done|lia]. simpl. by rewrite decide_True.
    + destruct (IH _ _ _ Ha Hb ltac:(lia)) as (p & q & Hp & Hq & Hpq).
      apply list_elem_of_lookup_2, elem_of_unique_go in Ha as [_ Ha].
      rewrite not_elem_of_union, not_elem_of_singleton in Ha.
      exists (S p), (S q).
      rewrite !list_find_eq_cons_ne, Hp, Hq by tauto.
      split_and!; [done | done | lia].
Qed.

Lemma unique_cons (x : string) (l : list string) :
  Pd.unique (x :: l) !! 0 = Some x.
Proof.
  unfold Pd.unique. simpl. by rewrite decide_False by apply not_elem_of_empty.
Qed.

(** ** The two stages of the retriever *)

Section retriever.
Context `{M : Models}.

Lemma init_Ok (df : list Pd.row) :
  RAGLLM.__init__ df
  = Ok (RAGLLM.Self M df (Pd.unique (Pd.topic <$> df))
          (encode <$> Pd.unique (Pd.topic <$> df))).
Proof. reflexivity. Qed.

Lemma getitem_Ok {A : Type} (l : list A) (i : nat) (x : A) :
  Py.getitem l i = Ok x ↔ l !! i = Some x.
Proof. unfold Py.getitem. destruct (l !! i); split; congruence. Qed.

Lemma pairwise_Ok_inv (x : Vec) (Y : list Vec) (l : list Score) :
  Pairwise.cosine_similarity x Y = Ok l →
  l = cosine_similarity x <$> Y ∧ Y ≠ [].
Proof. destruct Y; [done|]. by intros [= <-]. Qed.

Lemma pairwise_Ok (x : Vec) (Y : list Vec) :
  cosine_similarity x <$> Y ≠ [] →
  Pairwise.cosine_similarity x Y = Ok (cosine_similarity x <$> Y).
Proof. by destruct Y. Qed.

Lemma argmax_Ok_nonempty (l : list Score) (i : nat) :
  Np.argmax l = Ok i → l ≠ [].
Proof. by destruct l. Qed.

(** What a successful run of the two stages has computed. *)
Lemma retrieve_Ok (s : RAGLLM.self) (q bt bp : string) :
  RAGLLM.retrieve s q = Ok (bt, bp) ↔
  ∃ i k,
    Np.argmax (cosine_similarity (encode q) <$> RAGLLM.title_embeddings s)
      = Ok i ∧
    RAGLLM.titles s !! i = Some bt ∧
    Np.argmax (scores q (RAGLLM.topic_contexts (RAGLLM.external_data s) bt))
      = Ok k ∧
    RAGLLM.topic_contexts (RAGLLM.external_data s) bt !! k = Some bp.
Proof.
  unfold RAGLLM.retrieve, scores, mbind, result_bind.
  split.
  - destruct (Pairwise.cosine_similarity _ (RAGLLM.title_embeddings s))
      as [l|] eqn:Hl; [|done].
    apply pairwise_Ok_inv in Hl as [-> _].
    destruct (Np.argmax
                (cosine_similarity (encode q) <$> RAGLLM.title_embeddings s))
      as [i|] eqn:Hi; [|done].
    destruct (Py.getitem (RAGLLM.titles s) i) as [t|] eqn:Ht; [|done].
    destruct (Pairwise.cosine_similarity (encode q)
                (encode <$> RAGLLM.topic_contexts (RAGLLM.external_data s) t))
      as [l'|] eqn:Hl'; [|done].
    apply pairwise_Ok_inv in Hl' as [-> _].
    destruct (Np.argmax
                (cosine_similarity (encode q)
                   <$> (encode
                          <$> RAGLLM.topic_contexts (RAGLLM.external_data s) t)))
      as [k|] eqn:Hk; [|done].
    destruct (Py.getitem
                (RAGLLM.topic_contexts (RAGLLM.external_data s) t) k)
      as [c|] eqn:Hc; [|done].
    intros [= <- <-]. apply getitem_Ok in Ht, Hc. by exists i, k.
  - intros (i & k & Hi & Ht%getitem_Ok & Hk & Hc%getitem_Ok).
    rewrite (pairwise_Ok _ _ (argmax_Ok_nonempty _ _ Hi)), Hi, Ht.
    rewrite (pairwise_Ok _ _ (argmax_Ok_nonempty _ _ Hk)), Hk, Hc. done.
Qed.

Lemma elem_of_topic_contexts (df : list Pd.row) (t c : string) :
  c ∈ RAGLLM.topic_contexts df t ↔
  ∃ r, r ∈ df ∧ Pd.topic r = t ∧ Pd.context r = c.
Proof.
  unfold RAGLLM.topic_contexts. rewrite list_elem_of_fmap. split.
  - intros (r & -> & [Ht Hr]%list_elem_of_filter). by exists r.
  - intros (r & Hr & Ht & <-). exists r. by rewrite list_elem_of_filter.
Qed.

(** Every title of the index has a context. *)
Lemma topic_contexts_nonempty (df : list Pd.row) (t : string) :
  t ∈ Pd.unique (Pd.topic <$> df) → RAGLLM.topic_contexts df t ≠ [].
Proof.
  rewrite elem_of_unique, list_elem_of_fmap. intros (r & -> & Hr) Hnil.
  assert (Pd.context r ∈ RAGLLM.topic_contexts df (Pd.topic r)) as Hin
    by (apply elem_of_topic_contexts; by exists r).
  rewrite Hnil in Hin. by apply elem_of_nil in Hin.
Qed.

(** On a data frame with at least one row both stages succeed. *)
Lemma retrieve_total (df : list Pd.row) (q : string) :
  df ≠ [] →
  ∃ i k bt bp,
    Np.argmax (scores q (Pd.unique (Pd.topic <$> df))) = Ok i ∧
    Pd.unique (Pd.topic <$> df) !! i = Some bt ∧
    Np.argmax (scores q (RAGLLM.topic_contexts df bt)) = Ok k ∧
    RAGLLM.topic_contexts df bt !! k = Some bp ∧
    RAGLLM.retrieve
      (RAGLLM.Self M df (Pd.unique (Pd.topic <$> df))
         (encode <$> Pd.unique (Pd.topic <$> df))) q = Ok (bt, bp).
Proof.
  intros Hdf.
  assert (scores q (Pd.unique (Pd.topic <$> df)) ≠ []) as Hs.
  { destruct df as [|r df]; [done|]. intros Hnil.
    apply (f_equal length) in Hnil. unfold scores in Hnil.
    rewrite !length_fmap, fmap_cons in Hnil.
    pose proof (lookup_lt_Some _ _ _ (unique_cons (Pd.topic r) (Pd.topic <$> df))).
    simpl in Hnil. lia. }
  destruct (argmax_Ok _ Hs) as (i & Hi & Hlt).
  unfold scores in Hlt. rewrite !length_fmap in Hlt.
  destruct (lookup_lt_is_Some_2 _ _ Hlt) as [bt Hbt].
  pose proof (topic_contexts_nonempty df bt (list_elem_of_lookup_2 _ _ _ Hbt))
    as Hne.
  assert (scores q (RAGLLM.topic_contexts df bt) ≠ []) as Hs'.
  { intros Hnil. apply (f_equal length) in Hnil. unfold scores in Hnil.
    rewrite !length_fmap in Hnil. simpl in Hnil.
    by destruct (RAGLLM.topic_contexts df bt). }
  destruct (argmax_Ok _ Hs') as (k & Hk & Hlt').
  unfold scores in Hlt'. rewrite !length_fmap in Hlt'.
  destruct (lookup_lt_is_Some_2 _ _ Hlt') as [bp Hbp].
  exists i, k, bt, bp. split_and!; try done.
  apply retrieve_Ok. by exists i, k.
Qed.

End retriever.

(** ** Rows and the contexts of a title *)

Lemma topic_contexts_app (l1 l2 : list Pd.row) (t : string) :
  RAGLLM.topic_contexts (l1 ++ l2) t
  = RAGLLM.topic_contexts l1 t ++ RAGLLM.topic_contexts l2 t.
Proof. unfold RAGLLM.topic_contexts. by rewrite filter_app, fmap_app. Qed.

Lemma topic_contexts_cons_eq (r : Pd.row) (l : list Pd.row) (t : string) :
  Pd.topic r = t →
  RAGLLM.topic_contexts (r :: l) t = Pd.context r :: RAGLLM.topic_contexts l t.
Proof. intros Ht. unfold RAGLLM.topic_contexts. by rewrite filter_cons_True. Qed.

Lemma topic_contexts_cons_ne (r : Pd.row) (l : list Pd.row) (t : string) :
  Pd.topic r ≠ t →
  RAGLLM.topic_contexts (r :: l) t = RAGLLM.topic_contexts l t.
Proof. intros Ht. unfold RAGLLM.topic_contexts. by rewrite filter_cons_False. Qed.

(** The row [n], when its topic is [t], stands in the contexts of [t] at
    the position that counts the rows of topic [t] before it. *)
Lemma topic_contexts_lookup_row (df : list Pd.row) (t : string) (n : nat)
    (r : Pd.row) :
  df !! n = Some r → Pd.topic r = t →
  RAGLLM.topic_contexts df t
    !! length (RAGLLM.topic_contexts (take n df) t) = Some (Pd.context r).
Proof.
  intros Hn Ht.
  assert (RAGLLM.topic_contexts df t
          = RAGLLM.topic_contexts (take n df ++ r :: drop (S n) df) t) as ->
    by (by rewrite take_drop_middle).
  rewrite topic_contexts_app, lookup_app_r, Nat.sub_diag by done.
  by rewrite topic_contexts_cons_eq.
Qed.

Lemma topic_contexts_take_lt (df : list Pd.row) (t : string) (m n : nat)
    (r : Pd.row) :
  m < n → df !! m = Some r → Pd.topic r = t →
  length (RAGLLM.topic_contexts (take m df) t)
  < length (RAGLLM.topic_contexts (take n df) t).
Proof.
  intros Hmn Hm Ht.
  assert (take n df !! m = Some r) as Hm' by (by rewrite lookup_take_lt).
  assert (RAGLLM.topic_contexts (take n df) t
          = RAGLLM.topic_contexts
              (take m df ++ r :: drop (S m) (take n df)) t) as ->.
  { rewrite <- (take_drop_middle _ _ _ Hm') at 1.
    by rewrite take_take, Nat.min_l by lia. }
  rewrite topic_contexts_app, topic_contexts_cons_eq, length_app by done.
  simpl. lia.
Qed.

(** Conversely, every context of [t] is the context of a row of topic
    [t]. *)
Lemma topic_contexts_lookup_inv (df : list Pd.row) (t c : string) (k : nat) :
  RAGLLM.topic_contexts df t !! k = Some c →
  ∃ n r, df !! n = Some r ∧ Pd.topic r = t ∧ Pd.context r = c ∧
         length (RAGLLM.topic_contexts (take n df) t) = k.
Proof.
  revert k; induction df as [|r0 l IH]; intros k Hk; [done|].
  destruct (decide (Pd.topic r0 = t)) as [Ht|Ht].
  - rewrite topic_contexts_cons_eq in Hk by done.
    destruct k as [|k]; simpl in Hk.
    + injection Hk as <-. by exists 0, r0.
    + destruct (IH k Hk) as (n & r & Hn & Hr & Hc & Hlen).
      exists (S n), r. split_and!; try done.
      rewrite firstn_cons, topic_contexts_cons_eq by done. simpl. by rewrite Hlen.
  - rewrite topic_contexts_cons_ne in Hk by done.
    destruct (IH k Hk) as (n & r & Hn & Hr & Hc & Hlen).
    exists (S n), r. split_and!; try done.
    by rewrite firstn_cons, topic_contexts_cons_ne.
Qed.

Lemma scores_lookup `{M : Models} (q : string) (texts : list string)
    (j : nat) (t : string) :
  texts !! j = Some t → scores q texts !! j = Some (score q t).
Proof.
  intros Hj. unfold scores. by rewrite !list_lookup_fmap, Hj.
Qed.

(** The first maximum among the contexts of a title, read on the rows of
    the data frame. *)
Lemma first_max_rows `{M : Models} (df : list Pd.row) (q bt bp : string)
    (k : nat) :
  RAGLLM.topic_contexts df bt !! k = Some bp →
  first_max (scores q (RAGLLM.topic_contexts df bt)) k →
  ∃ n r,
    df !! n = Some r ∧ Pd.topic r = bt ∧ Pd.context r = bp ∧
    (∀ m r', df !! m = Some r' → Pd.topic r' = bt →
             leb (score q (Pd.context r')) (score q bp) = true) ∧
    (∀ m r', m < n → df !! m = Some r' → Pd.topic r' = bt →
             leb (score q bp) (score q (Pd.context r')) = false).
Proof.
  intros Hbp (x & Hx & Hmax & Hfst).
  rewrite (scores_lookup _ _ _ _ Hbp) in Hx. injection Hx as <-.
  destruct (topic_contexts_lookup_inv _ _ _ _ Hbp)
    as (n & r & Hn & Hr & Hc & Hlen).
  exists n, r. split_and!; try done.
  - intros m r' Hm Ht.
    eapply Hmax, scores_lookup. by apply topic_contexts_lookup_row.
  - intros m r' Hmn Hm Ht.
    eapply Hfst; [|by eapply scores_lookup, topic_contexts_lookup_row].
    rewrite <- Hlen. by eapply topic_contexts_take_lt.
Qed.

(** The first maximum among the titles, read on the rows of the data
    frame: the title returned scores at least as high as the topic of
    every row, and strictly higher than the topic of every row before
    its own first row. *)
Lemma first_max_titles `{M : Models} (HO : ScoreOrder M) (df : list Pd.row)
    (q bt : string) (i : nat) :
  Pd.unique (Pd.topic <$> df) !! i = Some bt →
  first_max (scores q (Pd.unique (Pd.topic <$> df))) i →
  (∀ r', r' ∈ df → leb (score q (Pd.topic r')) (score q bt) = true) ∧
  ∃ n0 r0,
    df !! n0 = Some r0 ∧ Pd.topic r0 = bt ∧
    ∀ m r', m < n0 → df !! m = Some r' →
            leb (score q bt) (score q (Pd.topic r')) = false.
Proof.
  intros Hbt (x & Hx & Hmax & Hfst).
  rewrite (scores_lookup _ _ _ _ Hbt) in Hx. injection Hx as <-.
  assert (∀ r', r' ∈ df →
            ∃ j, Pd.unique (Pd.topic <$> df) !! j = Some (Pd.topic r')) as Hidx.
  { intros r' Hr'. apply list_elem_of_lookup_1, elem_of_unique.
    apply list_elem_of_fmap. by exists r'. }
  split.
  - intros r' Hr'. destruct (Hidx r' Hr') as [j Hj].
    eapply Hmax. by apply scores_lookup.
  - pose proof (list_elem_of_lookup_2 _ _ _ Hbt) as Hin.
    apply (proj1 (elem_of_unique _ _)) in Hin.
    destruct (list_find_eq_elem_of bt _ Hin) as [n0 Hn0].
    pose proof Hn0 as (Hl0 & _ & Hmin0)%list_find_Some.
    rewrite list_lookup_fmap in Hl0.
    destruct (df !! n0) as [r0|] eqn:Hr0; [|done].
    injection Hl0 as Ht0.
    exists n0, r0. split_and!; [done | done |].
    intros m r' Hm Hr'.
    assert ((Pd.topic <$> df) !! m = Some (Pd.topic r')) as Hlm
      by (by rewrite list_lookup_fmap, Hr').
    assert (Pd.topic r' ≠ bt) as Hne by (by eapply Hmin0).
    destruct (Hidx r' (list_elem_of_lookup_2 _ _ _ Hr')) as [j Hj].
    eapply Hfst; [|by eapply scores_lookup].
    destruct (Nat.lt_total j i) as [Hlt|[->|Hgt]]; [done | congruence |].
    exfalso.
    destruct (unique_go_order ∅ _ _ _ _ _ Hbt Hj Hgt)
      as (p & q' & Hp & Hq' & Hpq).
    rewrite Hn0 in Hp. injection Hp as <-.
    apply list_find_Some in Hq' as (_ & _ & Hminq).
    destruct (decide (m < q')) as [Hmq|Hmq]; [|lia].
    by eapply (Hminq m).
Qed.

(** ** The order of the integer scores of [Demo] *)

Lemma demo_score_order : ScoreOrder Demo.models.
Proof.
  split; simpl.
  - intros x y. rewrite !Z.leb_le. lia.
  - intros x y z. rewrite !Z.leb_le. lia.
Qed.

(** ** The retriever selects the first maxima *)

(** C1.  For every query against the index of a data frame with at least
    one row, and scores compared by a total preorder, the retriever
    returns the title at the first index of maximal similarity among the
    titles and, among the contexts of that title, the context at the
    first index of maximal similarity to the same query: equal scores are
    resolved in favour of the earlier one.  These two indices are the
    only ones with that property, so the result is determined by the
    index and the query.

    On the rows of the data frame: the context returned is that of a row
    whose topic is the title returned; it scores at least as high as the
    context of every row with that topic and strictly higher than the
    context of every earlier row with that topic.  The title returned
    scores at least as high as the topic of every row, and strictly
    higher than the topic of every row before the first row that carries
    it. *)
Theorem retrieve_first_max `{M : Models} (HO : ScoreOrder M)
    (df : list Pd.row) (q : string) :
  df ≠ [] →
  ∃ s i k bt bp,
    RAGLLM.__init__ df = Ok s ∧
    RAGLLM.retrieve s q = Ok (bt, bp) ∧
    RAGLLM.titles s !! i = Some bt ∧
    first_max (scores q (RAGLLM.titles s)) i ∧
    RAGLLM.topic_contexts df bt !! k = Some bp ∧
    first_max (scores q (RAGLLM.topic_contexts df bt)) k ∧
    (∀ i', first_max (scores q (RAGLLM.titles s)) i' → i' = i) ∧
    (∀ k', first_max (scores q (RAGLLM.topic_contexts df bt)) k' → k' = k) ∧
    (∃ n r,
        df !! n = Some r ∧ Pd.topic r = bt ∧ Pd.context r = bp ∧
        (∀ m r', df !! m = Some r' → Pd.topic r' = bt →
                 leb (score q (Pd.context r')) (score q bp) = true) ∧
        (∀ m r', m < n → df !! m = Some r' → Pd.topic r' = bt →
                 leb (score q bp) (score q (Pd.context r')) = false)) ∧
    (∀ r', r' ∈ df → leb (score q (Pd.topic r')) (score q bt) = true) ∧
    (∃ n0 r0,
        df !! n0 = Some r0 ∧ Pd.topic r0 = bt ∧
        ∀ m r', m < n0 → df !! m = Some r' →
                leb (score q bt) (score q (Pd.topic r')) = false).
Proof.
  intros Hdf.
  destruct (retrieve_total df q Hdf) as (i & k & bt & bp & Hi & Hbt & Hk & Hbp & Hr).
  eexists _, i, k, bt, bp. split; [apply init_Ok|]. simpl.
  pose proof (argmax_first_max _ _ Hi) as Hfi.
  pose proof (argmax_first_max _ _ Hk) as Hfk.
  destruct (first_max_titles HO df q bt i Hbt Hfi) as [Htmax Htfst].
  split_and!; try done.
  - intros i' Hi'. by eapply first_max_unique.
  - intros k' Hk'. by eapply first_max_unique.
  - by eapply first_max_rows.
Qed.

Lemma retrieve_first_max_witness :
  Demo.df ≠ [] ∧
  ∃ s i k bt bp,
    RAGLLM.__init__ (H:=Demo.models) Demo.df = Ok s ∧
    RAGLLM.retrieve s "abcdef" = Ok (bt, bp) ∧
    RAGLLM.titles s !! i = Some bt ∧
    first_max (H:=Demo.models) (scores "abcdef" (RAGLLM.titles s)) i ∧
    RAGLLM.topic_contexts Demo.df bt !! k = Some bp ∧
    first_max (H:=Demo.models)
      (scores "abcdef" (RAGLLM.topic_contexts Demo.df bt)) k ∧
    (∀ i', first_max (H:=Demo.models) (scores "abcdef" (RAGLLM.titles s)) i'
           → i' = i) ∧
    (∀ k', first_max (H:=Demo.models)
             (scores "abcdef" (RAGLLM.topic_contexts Demo.df bt)) k'
           → k' = k) ∧
    (∃ n r,
        Demo.df !! n = Some r ∧ Pd.topic r = bt ∧ Pd.context r = bp ∧
        (∀ m r', Demo.df !! m = Some r' → Pd.topic r' = bt →
                 leb (Models:=Demo.models) (score "abcdef" (Pd.context r'))
                   (score "abcdef" bp) = true) ∧
        (∀ m r', m < n → Demo.df !! m = Some r' → Pd.topic r' = bt →
                 leb (Models:=Demo.models) (score "abcdef" bp)
                   (score "abcdef" (Pd.context r')) = false)) ∧
    (∀ r', r' ∈ Demo.df →
           leb (Models:=Demo.models) (score "abcdef" (Pd.topic r'))
             (score "abcdef" bt) = true) ∧
    (∃ n0 r0,
        Demo.df !! n0 = Some r0 ∧ Pd.topic r0 = bt ∧
        ∀ m r', m < n0 → Demo.df !! m = Some r' →
                leb (Models:=Demo.models) (score "abcdef" bt)
                  (score "abcdef" (Pd.topic r')) = false).
Proof.
  split; [discriminate|].
  apply (retrieve_first_max demo_score_order Demo.df "abcdef"). discriminate.
Defined.

(** C2.  Whenever the retriever returns a title and a context, the
    context is one of the contexts that the data frame records for that
    title: it is the context of a row whose topic is the returned
    title. *)
Theorem retrieve_within_topic `{M : Models} (s : RAGLLM.self)
    (q bt bp : string) :
  RAGLLM.retrieve s q = Ok (bt, bp) →
  bp ∈ RAGLLM.topic_contexts (RAGLLM.external_data s) bt ∧
  ∃ r, r ∈ RAGLLM.external_data s ∧ Pd.topic r = bt ∧ Pd.context r = bp.
Proof.
  intros (i & k & _ & _ & _ & Hbp)%retrieve_Ok.
  apply list_elem_of_lookup_2 in Hbp. split; [done|].
  by apply elem_of_topic_contexts.
Qed.

Lemma retrieve_within_topic_witness :
  "Juneau" ∈ RAGLLM.topic_contexts Demo.df "Alaska" ∧
  ∃ r, r ∈ Demo.df ∧ Pd.topic r = "Alaska" ∧ Pd.context r = "Juneau".
Proof.
  apply (@retrieve_within_topic Demo.models
           (RAGLLM.Self Demo.models Demo.df
              (Pd.unique (Pd.topic <$> Demo.df))
              (encode <$> Pd.unique (Pd.topic <$> Demo.df)))
           "abcdef" "Alaska" "Juneau").
  vm_compute. reflexivity.
Defined.

(** C10.  For every data frame with at least one row and every query,
    every title of the index has a context, the title chosen by the first
    stage in particular; both stages of the retriever succeed, and so
    does [generate_answer]. *)
Theorem retrieve_defined `{M : Models} (df : list Pd.row) (q : string) :
  df ≠ [] →
  ∃ s bt bp a,
    RAGLLM.__init__ df = Ok s ∧
    (∀ t, t ∈ RAGLLM.titles s → RAGLLM.topic_contexts df t ≠ []) ∧
    RAGLLM.retrieve s q = Ok (bt, bp) ∧
    bt ∈ RAGLLM.titles s ∧
    RAGLLM.topic_contexts df bt ≠ [] ∧
    RAGLLM.generate_answer s q = Ok a.
Proof.
  intros Hdf.
  destruct (retrieve_total df q Hdf) as (i & k & bt & bp & Hi & Hbt & Hk & Hbp & Hr).
  destruct (answer_Ok (generator (prompt bp q))) as (a & _ & Ha).
  eexists _, bt, bp, a. split; [apply init_Ok|]. simpl.
  apply list_elem_of_lookup_2 in Hbt.
  split_and!; try done.
  - apply topic_contexts_nonempty.
  - by apply topic_contexts_nonempty.
  - unfold RAGLLM.generate_answer. by rewrite Hr.
Qed.

Lemma retrieve_defined_witness :
  Demo.df ≠ [] ∧
  ∃ s bt bp a,
    RAGLLM.__init__ (H:=Demo.models) Demo.df = Ok s ∧
    (∀ t, t ∈ RAGLLM.titles s → RAGLLM.topic_contexts Demo.df t ≠ []) ∧
    RAGLLM.retrieve s "abcdef" = Ok (bt, bp) ∧
    bt ∈ RAGLLM.titles s ∧
    RAGLLM.topic_contexts Demo.df bt ≠ [] ∧
    RAGLLM.generate_answer s "abcdef" = Ok a.
Proof.
  split; [discriminate|].
  apply (@retrieve_defined Demo.models Demo.df "abcdef"). discriminate.
Defined.

(** The method on the data frame of [Demo]. *)
Example demo_run :
  (s ← RAGLLM.__init__ (H:=Demo.models) Demo.df; RAGLLM.retrieve s "abcdef")
    = Ok ("Alaska", "Juneau") ∧
  (s ← RAGLLM.__init__ (H:=Demo.models) Demo.df;
   RAGLLM.generate_answer s "abcdef") = Ok "42" ∧
  Np.argmax (H:=Demo.models) [1; 3; 3; 2]%Z = Ok 1 ∧
  Np.argmax (H:=Demo.models) [] = Raise ValueError.
Proof. by vm_compute. Qed.

(** ** Building the index *)

(** C7.  The titles of the index are the topics of the data frame without
    repetition, in the order of their first occurrences, as many as there
    are distinct topics; the matrix of title embeddings has one row per
    title, and its row [i] is the embedding of the title [i]. *)
Theorem init_titles `{M : Models} (df : list Pd.row) :
  ∃ s,
    RAGLLM.__init__ df = Ok s ∧
    NoDup (RAGLLM.titles s) ∧
    (∀ t, t ∈ RAGLLM.titles s ↔ ∃ r, r ∈ df ∧ Pd.topic r = t) ∧
    length (RAGLLM.titles s)
      = size (list_to_set (Pd.topic <$> df) : gset string) ∧
    (∀ i j a b,
        RAGLLM.titles s !! i = Some a → RAGLLM.titles s !! j = Some b →
        i < j →
        ∃ p q,
          list_find (λ t, t = a) (Pd.topic <$> df) = Some (p, a) ∧
          list_find (λ t, t = b) (Pd.topic <$> df) = Some (q, b) ∧
          p < q) ∧
    length (RAGLLM.title_embeddings s) = length (RAGLLM.titles s) ∧
    (∀ i, RAGLLM.title_embeddings s !! i = encode <$> RAGLLM.titles s !! i).
Proof.
  eexists. split; [apply init_Ok|]. simpl.
  assert (NoDup (Pd.unique (Pd.topic <$> df))) as Hnd
    by apply NoDup_unique_go.
  split_and!.
  - done.
  - intros t. rewrite elem_of_unique, list_elem_of_fmap.
    split; [intros (r & -> & Hr) | intros (r & Hr & <-)]; by exists r.
  - rewrite <- (size_list_to_set (C:=gset string)) by done. f_equal.
    apply set_eq. intros t. by rewrite !elem_of_list_to_set, elem_of_unique.
  - intros i j a b. apply unique_go_order.
  - by rewrite length_fmap.
  - intros i. by rewrite list_lookup_fmap.
Qed.

(** C5, as the spec states it, fails: building the index from an empty
    data frame raises nothing. *)
Lemma init_empty_counterexample :
  ¬ raises (RAGLLM.__init__ (H:=Demo.models) []).
Proof. intros [e He]. discriminate He. Qed.

(** C5, as the code has it.  Building the index from an empty data frame
    succeeds: the index has no title and a title-embedding matrix without
    rows. *)
Theorem init_empty `{M : Models} :
  RAGLLM.__init__ [] = Ok (RAGLLM.Self M [] [] []) ∧
  ¬ raises (RAGLLM.__init__ (H:=M) []).
Proof. split; [done|]. intros [e He]. discriminate He. Qed.

(** The failure on an empty data frame comes with the first query. *)
Lemma generate_answer_empty `{M : Models} (q : string) :
  RAGLLM.generate_answer (RAGLLM.Self M [] [] []) q = Raise ValueError.
Proof. reflexivity. Qed.

(** ** The contexts of a title *)

(** C8, as the spec states it, fails: the contexts of ["Texas"], which is
    not a title of the index of [Demo.df], are the empty list. *)
Lemma topic_contexts_unknown_counterexample :
  ("Texas" ∉ Pd.unique (Pd.topic <$> Demo.df)) ∧
  RAGLLM.topic_contexts Demo.df "Texas" = [].
Proof.
  split; [|by vm_compute].
  rewrite elem_of_unique. by apply (bool_decide_unpack _).
Qed.

(** C8, as the code has it.  The contexts of a string that is not a title
    of the index are the empty list: the row filter has no guard and
    raises nothing. *)
Theorem topic_contexts_unknown (df : list Pd.row) (t : string) :
  t ∉ Pd.unique (Pd.topic <$> df) → RAGLLM.topic_contexts df t = [].
Proof.
  intros Ht. destruct (RAGLLM.topic_contexts df t) as [|c l] eqn:Hc; [done|].
  destruct Ht. rewrite elem_of_unique, list_elem_of_fmap.
  assert (c ∈ RAGLLM.topic_contexts df t) as Hin by (rewrite Hc; left).
  apply elem_of_topic_contexts in Hin as (r & Hr & <- & _). by exists r.
Qed.

Lemma topic_contexts_unknown_witness :
  RAGLLM.topic_contexts Demo.df "Texas" = [].
Proof.
  apply (topic_contexts_unknown Demo.df "Texas").
  rewrite elem_of_unique. by apply (bool_decide_unpack _).
Defined.

(** ** The cosine kernel and the zero query *)









(** * Further properties of the code *)

(** ** The answer is what follows the last marker *)

(** ["Answer: "] does not overlap a shifted copy of itself. *)
Lemma answer_marker_no_overlap (q r t : string) :
  q ≠ EmptyString →
  q +:+ "Answer: " +:+ r = "Answer: " +:+ t →
  ∃ t', q = "Answer: " +:+ t'.
Proof.
  intros Hq H.
  do 8 (destruct q as [|? q];
        [ try done; rewrite ?str_app_cons, ?str_app_nil_l in H;
          repeat (injection H as ? H; try done); done
        | rewrite !str_app_cons in H; injection H as -> H ]).
  by exists q.
Qed.

(** Nor does it run from the end of a text into a line break. *)
Lemma answer_marker_no_straddle (q r t : string) :
  q ≠ EmptyString →
  q +:+ String "010" r = "Answer: " +:+ t →
  ∃ t', q = "Answer: " +:+ t'.
Proof.
  intros Hq H.
  do 8 (destruct q as [|? q];
        [ try done; rewrite ?str_app_cons, ?str_app_nil_l in H;
          repeat (injection H as ? H; try done); done
        | rewrite !str_app_cons in H; injection H as -> H ]).
  by exists q.
Qed.

Lemma slice_from_app_le (n : nat) (a b : string) :
  n ≤ String.length a →
  Py.slice_from n (a +:+ b) = Py.slice_from n a +:+ b.
Proof.
  revert a; induction n as [|n IH]; intros a Hn; [by destruct a|].
  destruct a as [|c a]; simpl in Hn; [lia|].
  rewrite str_app_cons. simpl. apply IH. lia.
Qed.

Lemma split_loop_None (n : nat) (sep s : string) :
  Py.find sep s = None → Py.split_loop n sep s = [s].
Proof.
  intros Hf. destruct n; [apply split_loop_0 | by rewrite split_loop_S, Hf].
Qed.

(** For a separator that does not overlap itself, the last segment is
    what follows the last occurrence. *)
Lemma split_loop_last_app (sep pre post : string) (n : nat) :
  (∀ q r t, q ≠ EmptyString → q +:+ sep +:+ r = sep +:+ t →
            ∃ t', q = sep +:+ t') →
  sep ≠ EmptyString →
  Py.find sep post = None →
  String.length (pre +:+ sep +:+ post) ≤ n →
  last (Py.split_loop n sep (pre +:+ sep +:+ post)) = Some post.
Proof.
  intros Hno Hsep Hpost. pose proof (str_length_pos _ Hsep) as Hlen.
  revert pre; induction n as [|n IH]; intros pre Hn.
  { rewrite !str_length_app in Hn. lia. }
  assert (String.prefix sep (Py.slice_from (String.length pre)
            (pre +:+ sep +:+ post)) = true) as Hat
    by (rewrite slice_from_app; apply prefix_app).
  destruct (find_is_Some _ _ _ Hat) as [pos Hf].
  rewrite split_loop_S, Hf.
  pose proof Hf as (Hp & Hle & Hmin)%find_Some.
  destruct (split_loop_last n sep
              (Py.slice_from (pos + String.length sep) (pre +:+ sep +:+ post)))
    as [x Hx].
  rewrite last_cons, Hx. rewrite <- Hx. clear x Hx.
  assert (pos ≤ String.length pre) as Hpos.
  { destruct (decide (pos ≤ String.length pre)) as [|Hgt]; [done|].
    rewrite Hmin in Hat by lia. done. }
  rewrite slice_from_add, slice_from_app_le by done.
  rewrite slice_from_app_le in Hp by done.
  destruct (decide (pos = String.length pre)) as [->|Hne].
  - replace (Py.slice_from (String.length pre) pre) with EmptyString.
    + rewrite str_app_nil_l, slice_from_app. by rewrite split_loop_None.
    + clear. induction pre as [|c pre IH]; [done | by simpl].
  - assert (Py.slice_from pos pre ≠ EmptyString) as Hq.
    { intros Hnil. apply (f_equal String.length) in Hnil.
      rewrite slice_from_length in Hnil. simpl in Hnil. lia. }
    pose proof (prefix_inv _ _ Hp) as Heq.
    destruct (Hno _ _ _ Hq Heq) as [t' Ht'].
    rewrite Ht', str_app_assoc, slice_from_app.
    apply IH.
    apply (f_equal String.length) in Ht'.
    rewrite slice_from_length, str_length_app in Ht'.
    rewrite !str_length_app in Hn |- *. lia.
Qed.

Lemma answer_app_marker (pre post : string) :
  Py.find "Answer: " post = None →
  answer (pre +:+ "Answer: " +:+ post) = Ok post.
Proof.
  intros Hpost.
  destruct (answer_Ok (pre +:+ "Answer: " +:+ post)) as (a & Ha & ->).
  f_equal. rewrite split_loop_last_app in Ha; try done; [congruence|].
  apply answer_marker_no_overlap.
Qed.

(** X1.  When the generated text is [pre], the marker ["Answer: "] and a
    text [post] without the marker, the answer is [post], whatever [pre]
    contains: the answer is the text behind the last marker. *)
Theorem answer_after_last_marker (pre post : string) :
  ¬ Py.contains "Answer: " post →
  answer (pre +:+ "Answer: " +:+ post) = Ok post.
Proof.
  intros Hpost%find_None_iff. by apply answer_app_marker.
Qed.

Lemma answer_after_last_marker_witness :
  answer ("Answer: 1" +:+ "Answer: " +:+ "2 or 3") = Ok "2 or 3".
Proof.
  apply (answer_after_last_marker "Answer: 1" "2 or 3").
  apply find_None_iff. reflexivity.
Defined.

(** ** The generator echoes the prompt *)

Lemma prompt_space (bp q completion : string) :
  prompt bp q +:+ " " +:+ completion
  = ("Context: " +:+ bp +:+ Py.nl +:+ Py.nl +:+ "Question: " +:+ q +:+ Py.nl)
      +:+ "Answer: " +:+ completion.
Proof.
  unfold prompt, Py.fstring. simpl.
  rewrite str_app_nil_r, !str_app_assoc. reflexivity.
Qed.

(** X2.  When the generator returns the prompt, a space and a completion
    that does not contain ["Answer: "], [generate_answer] returns the
    completion, whatever the context and the question contain. *)
Theorem generate_answer_completion `{M : Models} (s : RAGLLM.self)
    (q bt bp completion : string) :
  RAGLLM.retrieve s q = Ok (bt, bp) →
  generator (prompt bp q) = prompt bp q +:+ " " +:+ completion →
  ¬ Py.contains "Answer: " completion →
  RAGLLM.generate_answer s q = Ok completion.
Proof.
  intros Hr Hg Hc%find_None_iff. unfold RAGLLM.generate_answer.
  rewrite Hr. simpl. rewrite Hg, prompt_space. by apply answer_app_marker.
Qed.

Lemma generate_answer_completion_witness :
  RAGLLM.generate_answer
    (RAGLLM.Self Demo.models Demo.df (Pd.unique (Pd.topic <$> Demo.df))
       (encode <$> Pd.unique (Pd.topic <$> Demo.df))) "abcdef" = Ok "42".
Proof.
  apply (generate_answer_completion (M:=Demo.models) _ "abcdef" "Alaska"
           "Juneau" "42").
  - by vm_compute.
  - reflexivity.
  - apply find_None_iff. reflexivity.
Defined.

Lemma find_answer_skip (c : ascii) (s : string) :
  c ≠ "A"%char →
  Py.find "Answer: " (String c s) = S <$> Py.find "Answer: " s.
Proof.
  intros Hc. rewrite find_cons.
  destruct (String.prefix "Answer: " (String c s)) eqn:Hp; [|done].
  apply prefix_inv in Hp. rewrite str_app_cons in Hp. congruence.
Qed.

Lemma find_app_None (sep p r : string) :
  (∀ q t, q ≠ EmptyString → q +:+ r = sep +:+ t → ∃ t', q = sep +:+ t') →
  Py.find sep p = None → Py.find sep r = None →
  Py.find sep (p +:+ r) = None.
Proof.
  intros Hno Hp Hr. induction p as [|c p IH]; [done|].
  rewrite find_cons in Hp.
  destruct (String.prefix sep (String c p)) eqn:Hpre; [done|].
  destruct (Py.find sep p) eqn:Hfp; [done|].
  rewrite str_app_cons, find_cons.
  destruct (String.prefix sep (String c (p +:+ r))) eqn:Hpre2.
  - apply prefix_inv in Hpre2. rewrite <- str_app_cons in Hpre2.
    apply Hno in Hpre2 as [t' Ht']; [|done].
    by rewrite Ht', prefix_app in Hpre.
  - by rewrite IH.
Qed.

(** The prompt contains the marker only where the context or the
    question does: its own last line is ["Answer:"] without a space. *)
Lemma find_answer_prompt (bp q : string) :
  Py.find "Answer: " bp = None → Py.find "Answer: " q = None →
  Py.find "Answer: " (prompt bp q) = None.
Proof.
  intros Hbp Hq.
  replace (prompt bp q) with
    ("Context: " +:+ bp +:+ String "010" (String "010" ("Question: "
       +:+ q +:+ String "010" "Answer:"))).
  2:{ unfold prompt, Py.fstring. simpl.
      rewrite str_app_nil_r, !str_app_assoc. reflexivity. }
  assert (Py.find "Answer: " (q +:+ String "010" "Answer:") = None) as H1.
  { apply find_app_None; [|done|done]. intros a t. apply answer_marker_no_straddle. }
  assert (Py.find "Answer: " (String "010" (String "010" ("Question: "
            +:+ q +:+ String "010" "Answer:"))) = None) as H2.
  { rewrite !str_app_cons, str_app_nil_l.
    rewrite !find_answer_skip by done. by rewrite H1. }
  rewrite !str_app_cons, str_app_nil_l.
  rewrite !find_answer_skip by done.
  rewrite find_app_None; [done | | done | done].
  intros a t. apply answer_marker_no_straddle.
Qed.

(** X3.  When the generator returns the prompt and nothing more, and
    neither the context nor the question contains ["Answer: "],
    [generate_answer] returns the whole prompt: the last line of the
    prompt is ["Answer:"] without a space, so the marker ["Answer: "] is
    nowhere in the generated text. *)
Theorem generate_answer_prompt_only `{M : Models} (s : RAGLLM.self)
    (q bt bp : string) :
  RAGLLM.retrieve s q = Ok (bt, bp) →
  generator (prompt bp q) = prompt bp q →
  ¬ Py.contains "Answer: " bp →
  ¬ Py.contains "Answer: " q →
  RAGLLM.generate_answer s q = Ok (prompt bp q).
Proof.
  intros Hr Hg Hbp%find_None_iff Hq%find_None_iff.
  unfold RAGLLM.generate_answer. rewrite Hr. simpl. rewrite Hg.
  pose proof (find_answer_prompt bp q Hbp Hq) as Hf.
  destruct (answer_Ok (prompt bp q)) as (a & Ha & ->).
  rewrite split_loop_None in Ha by done. simpl in Ha. congruence.
Qed.

Lemma generate_answer_prompt_only_witness :
  RAGLLM.generate_answer
    (RAGLLM.Self Demo.echo_models Demo.df (Pd.unique (Pd.topic <$> Demo.df))
       (encode <$> Pd.unique (Pd.topic <$> Demo.df))) "abcdef"
  = Ok (prompt "Juneau" "abcdef").
Proof.
  apply (generate_answer_prompt_only (M:=Demo.echo_models) _ "abcdef"
           "Alaska" "Juneau").
  - by vm_compute.
  - reflexivity.
  - apply find_None_iff. reflexivity.
  - apply find_None_iff. reflexivity.
Defined.

(** ** The first stage narrows the search *)

Lemma scores_nonempty `{M : Models} (q : string) (texts : list string) :
  texts ≠ [] → scores q texts ≠ [].
Proof. unfold scores. by destruct texts. Qed.

Lemma topic_contexts_agree (df df' : list Pd.row) (t : string) :
  Pd.topic <$> df' = Pd.topic <$> df →
  (∀ n r r', df !! n = Some r → df' !! n = Some r' → Pd.topic r = t →
             Pd.context r' = Pd.context r) →
  RAGLLM.topic_contexts df' t = RAGLLM.topic_contexts df t.
Proof.
  revert df'; induction df as [|r l IH]; intros [|r' l'] Htop Hrows;
    try done.
  rewrite !fmap_cons in Htop. injection Htop as Hr Hl.
  assert (RAGLLM.topic_contexts l' t = RAGLLM.topic_contexts l t) as Htl.
  { apply IH; [done|]. intros n x x' Hx Hx'. by apply (Hrows (S n)). }
  destruct (decide (Pd.topic r = t)) as [Ht|Ht].
  - rewrite !topic_contexts_cons_eq by congruence.
    by rewrite Htl, (Hrows 0 r r').
  - by rewrite !topic_contexts_cons_ne by congruence.
Qed.

(** X4.  The title chosen depends on the topic column alone, and the
    context chosen on the rows of that title alone: on a second data
    frame with the same topic column the retriever returns the same
    title, and the same context as well when the rows whose topic is
    that title have the same contexts.  The contexts of the rows with
    other topics may be anything: they are never compared with the
    query. *)
Theorem retrieve_ignores_other_topics `{M : Models}
    (df df' : list Pd.row) (q bt bp : string) :
  Pd.topic <$> df' = Pd.topic <$> df →
  (RAGLLM.__init__ df ≫= λ s, RAGLLM.retrieve s q) = Ok (bt, bp) →
  (∃ bp', (RAGLLM.__init__ df' ≫= λ s, RAGLLM.retrieve s q) = Ok (bt, bp')) ∧
  ((∀ n r r', df !! n = Some r → df' !! n = Some r' → Pd.topic r = bt →
              Pd.context r' = Pd.context r) →
   (RAGLLM.__init__ df' ≫= λ s, RAGLLM.retrieve s q) = Ok (bt, bp)).
Proof.
  intros Htop Hr. rewrite init_Ok in Hr. rewrite init_Ok.
  change (RAGLLM.retrieve
            (RAGLLM.Self M df (Pd.unique (Pd.topic <$> df))
               (encode <$> Pd.unique (Pd.topic <$> df))) q = Ok (bt, bp))
    in Hr.
  apply retrieve_Ok in Hr as (i & k & Hi & Hbt & Hk & Hbp). simpl in *.
  split.
  - pose proof (list_elem_of_lookup_2 _ _ _ Hbt) as Hin.
    rewrite <- Htop in Hin. apply topic_contexts_nonempty in Hin.
    destruct (argmax_Ok _ (scores_nonempty q _ Hin)) as (k' & Hk' & Hlt).
    unfold scores in Hlt. rewrite !length_fmap in Hlt.
    destruct (lookup_lt_is_Some_2 _ _ Hlt) as [bp' Hbp'].
    exists bp'. apply retrieve_Ok. exists i, k'. simpl.
    rewrite Htop. by split_and!.
  - intros Hrows. pose proof (topic_contexts_agree _ _ bt Htop Hrows) as Hctx.
    apply retrieve_Ok. exists i, k. simpl.
    rewrite Htop, Hctx. by split_and!.
Qed.

Lemma retrieve_ignores_other_topics_witness :
  (∃ bp', (RAGLLM.__init__ (H:=Demo.models) Demo.df_other
             ≫= λ s, RAGLLM.retrieve s "abcdef") = Ok ("Alaska", bp')) ∧
  (RAGLLM.__init__ (H:=Demo.models) Demo.df_other
     ≫= λ s, RAGLLM.retrieve s "abcdef") = Ok ("Alaska", "Juneau").
Proof.
  destruct (retrieve_ignores_other_topics (M:=Demo.models) Demo.df
              Demo.df_other "abcdef" "Alaska" "Juneau") as [H1 H2].
  - reflexivity.
  - by vm_compute.
  - split; [exact H1|]. apply H2.
    intros [|[|[|[|n]]]] r r' Hr Hr' Ht; simpl in Hr, Hr';
      try discriminate; injection Hr as <-; injection Hr' as <-;
      try reflexivity; discriminate Ht.
Defined.

Lemma filter_all {A : Type} (P : A → Prop) `{!∀ x, Decision (P x)}
    (l : list A) :
  (∀ x, x ∈ l → P x) → filter P l = l.
Proof.
  induction l as [|x l IH]; intros Hl; [done|].
  rewrite filter_cons_True by (apply Hl; left).
  f_equal. apply IH. intros y Hy. apply Hl. by right.
Qed.

(** X5.  On a data frame whose rows all have the same topic the two
    stages amount to one search over all contexts: the retriever returns
    that topic and the context at the first index of maximal score among
    all the contexts of the data frame. *)
Theorem retrieve_single_topic `{M : Models} (HO : ScoreOrder M)
    (df : list Pd.row) (t q : string) :
  df ≠ [] →
  (∀ r, r ∈ df → Pd.topic r = t) →
  ∃ k bp,
    (RAGLLM.__init__ df ≫= λ s, RAGLLM.retrieve s q) = Ok (t, bp) ∧
    (Pd.context <$> df) !! k = Some bp ∧
    first_max (scores q (Pd.context <$> df)) k.
Proof.
  intros Hdf Hall.
  destruct (retrieve_total df q Hdf)
    as (i & k & bt & bp & Hi & Hbt & Hk & Hbp & Hr).
  assert (bt = t) as ->.
  { apply list_elem_of_lookup_2, elem_of_unique, list_elem_of_fmap in Hbt
      as (r & -> & Hin). by apply Hall. }
  assert (RAGLLM.topic_contexts df t = Pd.context <$> df) as Hctx.
  { unfold RAGLLM.topic_contexts. by rewrite filter_all. }
  rewrite Hctx in Hk, Hbp.
  exists k, bp. rewrite init_Ok. split_and!; [done | done |].
  by apply argmax_first_max.
Qed.

Lemma retrieve_single_topic_witness :
  ∃ k bp,
    (RAGLLM.__init__ (H:=Demo.models) Demo.df_single
       ≫= λ s, RAGLLM.retrieve s "abcdef") = Ok ("Alaska", bp) ∧
    (Pd.context <$> Demo.df_single) !! k = Some bp ∧
    first_max (H:=Demo.models)
      (scores "abcdef" (Pd.context <$> Demo.df_single)) k.
Proof.
  apply (retrieve_single_topic demo_score_order Demo.df_single "Alaska"
           "abcdef").
  - discriminate.
  - intros r Hr. unfold Demo.df_single in Hr.
    repeat (apply elem_of_cons in Hr as [->|Hr]; [reflexivity|]).
    by apply elem_of_nil in Hr.
Defined.

(** ** The flattening cell *)

Lemma getitem_Some {A : Type} (l : list A) (i : nat) (x : A) :
  l !! i = Some x → Py.getitem l i = Ok x.
Proof. intros H. unfold Py.getitem. by rewrite H. Qed.

Lemma getitem_None {A : Type} (l : list A) (i : nat) :
  length l ≤ i → Py.getitem l i = Raise IndexError.
Proof. intros H%lookup_ge_None. unfold Py.getitem. by rewrite H. Qed.

Lemma result_bind_Ok {A B : Type} (k : A → result B) (a : A) :
  Ok a ≫= k = k a.
Proof. reflexivity. Qed.

Lemma for_range_S {St : Type} (n i : nat) (body : nat → St → result St)
    (st : St) :
  Squad.for_range (S n) i body st
  = body i st ≫= λ st', Squad.for_range n (S i) body st'.
Proof. reflexivity. Qed.

Lemma append_row_Ok (squad_data : list Squad.article) (i j : nat)
    (a : Squad.article) (p : Squad.paragraph) (t c : list string) :
  squad_data !! i = Some a → Squad.paragraphs a !! j = Some p →
  Squad.append_row squad_data i j (Squad.Columns t c)
  = Ok (Squad.Columns (t ++ [Squad.title a]) (c ++ [Squad.context p])).
Proof.
  intros Ha Hp. unfold Squad.append_row.
  rewrite (getitem_Some _ _ _ Ha), !result_bind_Ok.
  by rewrite (getitem_Some _ _ _ Hp), result_bind_Ok.
Qed.

(** The inner loop appends the title once per paragraph and the contexts
    of the paragraphs in order. *)
Lemma for_range_append_row (squad_data : list Squad.article) (i : nat)
    (a : Squad.article) (n j : nat) (t c : list string) :
  squad_data !! i = Some a →
  j + n ≤ length (Squad.paragraphs a) →
  Squad.for_range n j (Squad.append_row squad_data i) (Squad.Columns t c)
  = Ok (Squad.Columns (t ++ replicate n (Squad.title a))
          (c ++ (Squad.context <$> take n (drop j (Squad.paragraphs a))))).
Proof.
  intros Ha. revert j t c; induction n as [|n IH]; intros j t c Hn.
  - simpl. by rewrite !app_nil_r.
  - destruct (lookup_lt_is_Some_2 (Squad.paragraphs a) j) as [p Hp]; [lia|].
    rewrite for_range_S, (append_row_Ok _ _ _ _ _ _ _ Ha Hp), result_bind_Ok.
    rewrite IH by lia. rewrite (drop_S _ _ _ Hp). simpl.
    by rewrite <- !app_assoc.
Qed.

Lemma fmap_topic_rows (a : Squad.article) :
  Pd.topic <$> (Squad.paragraphs a
                  ≫= λ p, [Pd.Row (Squad.title a) (Squad.context p)])
  = replicate (length (Squad.paragraphs a)) (Squad.title a).
Proof.
  induction (Squad.paragraphs a) as [|p ps IH]; [done|].
  rewrite bind_cons, fmap_app, IH. done.
Qed.

Lemma fmap_context_rows (a : Squad.article) :
  Pd.context <$> (Squad.paragraphs a
                    ≫= λ p, [Pd.Row (Squad.title a) (Squad.context p)])
  = Squad.context <$> Squad.paragraphs a.
Proof.
  induction (Squad.paragraphs a) as [|p ps IH]; [done|].
  rewrite bind_cons, fmap_app, IH. done.
Qed.

Lemma rows_cons (a : Squad.article) (l : list Squad.article) :
  Squad.rows (a :: l)
  = (Squad.paragraphs a ≫= λ p, [Pd.Row (Squad.title a) (Squad.context p)])
      ++ Squad.rows l.
Proof. unfold Squad.rows. by rewrite bind_cons. Qed.

Lemma rows_nil : Squad.rows [] = [].
Proof. reflexivity. Qed.

Lemma flatten_article_Ok (squad_data : list Squad.article) (i : nat)
    (a : Squad.article) (t c : list string) :
  squad_data !! i = Some a →
  Squad.flatten_article squad_data i (Squad.Columns t c)
  = Ok (Squad.Columns (t ++ (Pd.topic <$> Squad.rows [a]))
          (c ++ (Pd.context <$> Squad.rows [a]))).
Proof.
  intros Ha. unfold Squad.flatten_article.
  rewrite (getitem_Some _ _ _ Ha), result_bind_Ok.
  rewrite (for_range_append_row _ _ a) by (done || lia).
  rewrite rows_cons, rows_nil, !app_nil_r.
  rewrite fmap_topic_rows, fmap_context_rows.
  by rewrite drop_0, take_ge.
Qed.

(** The outer loop, from the article [i] on. *)
Lemma for_range_flatten_article (squad_data : list Squad.article)
    (n i : nat) (t c : list string) :
  i + n ≤ length squad_data →
  Squad.for_range n i (Squad.flatten_article squad_data) (Squad.Columns t c)
  = Ok (Squad.Columns
          (t ++ (Pd.topic <$> Squad.rows (take n (drop i squad_data))))
          (c ++ (Pd.context <$> Squad.rows (take n (drop i squad_data))))).
Proof.
  revert i t c; induction n as [|n IH]; intros i t c Hn.
  - simpl. by rewrite !app_nil_r.
  - destruct (lookup_lt_is_Some_2 squad_data i) as [a Ha]; [lia|].
    rewrite for_range_S, (flatten_article_Ok _ _ _ _ _ Ha), result_bind_Ok.
    rewrite IH by lia. rewrite (drop_S _ _ _ Ha), firstn_cons.
    rewrite (rows_cons a (take n _)), (rows_cons a []), rows_nil.
    by rewrite !app_nil_r, !fmap_app, <- !app_assoc.
Qed.

Lemma for_range_flatten_article_stale (squad_data : list Squad.article)
    (n i : nat) (data : Squad.columns) :
  i ≤ length squad_data → length squad_data < i + n →
  Squad.for_range n i (Squad.flatten_article squad_data) data
  = Raise IndexError.
Proof.
  revert i data; induction n as [|n IH]; intros i [t c] Hi Hn; [lia|].
  rewrite for_range_S. destruct (decide (i < length squad_data)) as [Hlt|Hge].
  - destruct (lookup_lt_is_Some_2 squad_data i Hlt) as [a Ha].
    rewrite (flatten_article_Ok _ _ _ _ _ Ha), result_bind_Ok. apply IH; lia.
  - unfold Squad.flatten_article. by rewrite getitem_None by lia.
Qed.

Lemma DataFrame_rows (rs : list Pd.row) :
  Squad.DataFrame (Squad.Columns (Pd.topic <$> rs) (Pd.context <$> rs))
  = Ok rs.
Proof.
  unfold Squad.DataFrame. simpl.
  rewrite decide_True by (by rewrite !length_fmap). f_equal.
  induction rs as [|[t c] rs IH]; [done|].
  rewrite !fmap_cons. cbn [zip_with]. by rewrite IH.
Qed.

Lemma flatten_take (n : nat) (squad_data : list Squad.article) :
  n ≤ length squad_data →
  Squad.flatten n squad_data = Ok (Squad.rows (take n squad_data)).
Proof.
  intros Hn. unfold Squad.flatten.
  rewrite for_range_flatten_article by lia. rewrite result_bind_Ok.
  rewrite drop_0. apply DataFrame_rows.
Qed.

Lemma length_rows (squad_data : list Squad.article) :
  length (Squad.rows squad_data)
  = sum_list (length ∘ Squad.paragraphs <$> squad_data).
Proof.
  induction squad_data as [|a l IH]; [done|].
  rewrite rows_cons, length_app, IH. simpl. f_equal.
  induction (Squad.paragraphs a) as [|p ps IHp]; [done|].
  rewrite bind_cons. simpl. by rewrite IHp.
Qed.

(** X6.  With [n_titles] the number of articles, the flattening cell
    builds one row per paragraph, article after article and paragraph
    after paragraph, each with the title of its article as topic; the
    data frame has as many rows as the document has paragraphs. *)
Theorem flatten_rows (squad_data : list Squad.article) :
  Squad.flatten (length squad_data) squad_data = Ok (Squad.rows squad_data) ∧
  length (Squad.rows squad_data)
  = sum_list (length ∘ Squad.paragraphs <$> squad_data).
Proof.
  split; [|apply length_rows].
  rewrite flatten_take by done. by rewrite take_ge.
Qed.

(** X7.  With a stale [n_titles]: when it is smaller than the number of
    articles, only the first [n_titles] articles are flattened; when it is
    larger, the cell raises [IndexError]. *)
Theorem flatten_stale (n_titles : nat) (squad_data : list Squad.article) :
  (n_titles ≤ length squad_data →
   Squad.flatten n_titles squad_data
   = Ok (Squad.rows (take n_titles squad_data))) ∧
  (length squad_data < n_titles →
   Squad.flatten n_titles squad_data = Raise IndexError).
Proof.
  split; [apply flatten_take|].
  intros Hn. unfold Squad.flatten.
  rewrite for_range_flatten_article_stale by lia. done.
Qed.

Lemma flatten_stale_witness :
  Squad.flatten 2 Demo.squad_data = Ok (Squad.rows (take 2 Demo.squad_data)) ∧
  Squad.flatten 4 Demo.squad_data = Raise IndexError.
Proof.
  split.
  - apply (flatten_stale 2 Demo.squad_data). simpl. lia.
  - apply (flatten_stale 4 Demo.squad_data). simpl. lia.
Defined.

(** ** From the document to the index *)

Lemma unique_go_replicate_elem (seen : gset string) (t : string) (n : nat)
    (l : list string) :
  t ∈ seen → Pd.unique_go seen (replicate n t ++ l) = Pd.unique_go seen l.
Proof.
  intros Ht. induction n as [|n IH]; [done|].
  simpl. by rewrite decide_True.
Qed.

Lemma unique_go_replicate_fresh (seen : gset string) (t : string) (n : nat)
    (l : list string) :
  t ∉ seen →
  Pd.unique_go seen (replicate (S n) t ++ l)
  = t :: Pd.unique_go ({[t]} ∪ seen) l.
Proof.
  intros Ht. simpl. rewrite decide_False by done. f_equal.
  apply unique_go_replicate_elem. set_solver.
Qed.

Lemma unique_go_rows (seen : gset string) (squad_data : list Squad.article) :
  NoDup (Squad.title <$> squad_data) →
  (∀ a, a ∈ squad_data → Squad.title a ∉ seen) →
  Pd.unique_go seen (Pd.topic <$> Squad.rows squad_data)
  = Squad.title
      <$> filter (λ a, 0 < length (Squad.paragraphs a)) squad_data.
Proof.
  revert seen; induction squad_data as [|a l IH]; intros seen Hnd Hseen;
    [done|].
  rewrite fmap_cons in Hnd. apply NoDup_cons in Hnd as [Ha Hnd].
  rewrite rows_cons, fmap_app, fmap_topic_rows.
  assert (Squad.title a ∉ seen) as Hfresh by (apply Hseen; left).
  destruct (Squad.paragraphs a) as [|p ps] eqn:Hps.
  - rewrite filter_cons_False by (rewrite Hps; simpl; lia).
    simpl. apply IH; [done|]. intros a' Ha'. apply Hseen. by right.
  - rewrite filter_cons_True by (rewrite Hps; simpl; lia).
    rewrite fmap_cons.
    change (length (p :: ps)) with (S (length ps)).
    rewrite unique_go_replicate_fresh by done. f_equal.
    apply IH; [done|]. intros a' Ha'.
    rewrite not_elem_of_union, not_elem_of_singleton. split.
    + intros Heq. apply Ha. rewrite <- Heq. apply list_elem_of_fmap.
      by exists a'.
    + apply Hseen. by right.
Qed.

(** X8.  When the articles of the document have distinct titles, the
    titles of the index built on the flattened document are the titles of
    the articles that have at least one paragraph, in the order of the
    document; an article without paragraphs leaves no title. *)
Theorem titles_of_rows `{M : Models} (squad_data : list Squad.article) :
  NoDup (Squad.title <$> squad_data) →
  ∃ s,
    RAGLLM.__init__ (Squad.rows squad_data) = Ok s ∧
    RAGLLM.titles s
    = Squad.title
        <$> filter (λ a, 0 < length (Squad.paragraphs a)) squad_data.
Proof.
  intros Hnd. eexists. split; [apply init_Ok|]. simpl.
  apply unique_go_rows; [done|]. intros a _. apply not_elem_of_empty.
Qed.

Lemma titles_of_rows_witness :
  ∃ s,
    RAGLLM.__init__ (H:=Demo.models) (Squad.rows Demo.squad_data) = Ok s ∧
    RAGLLM.titles s
    = Squad.title
        <$> filter (λ a, 0 < length (Squad.paragraphs a)) Demo.squad_data.
Proof.
  apply (titles_of_rows (M:=Demo.models) Demo.squad_data).
  by apply (bool_decide_unpack _).
Defined.

Lemma topic_contexts_article (a : Squad.article) (t : string) :
  RAGLLM.topic_contexts
    (Squad.paragraphs a ≫= λ p, [Pd.Row (Squad.title a) (Squad.context p)]) t
  = if decide (Squad.title a = t) then Squad.context <$> Squad.paragraphs a
    else [].
Proof.
  unfold RAGLLM.topic_contexts.
  induction (Squad.paragraphs a) as [|p ps IH]; [by case_decide|].
  rewrite bind_cons, filter_app, fmap_app, IH.
  case_decide as Ht.
  - by rewrite filter_cons_True by done.
  - by rewrite filter_cons_False by done.
Qed.

Lemma topic_contexts_rows_fresh (l : list Squad.article) (t : string) :
  t ∉ Squad.title <$> l → RAGLLM.topic_contexts (Squad.rows l) t = [].
Proof.
  induction l as [|a l IH]; intros Ht; [done|].
  rewrite fmap_cons, not_elem_of_cons in Ht. destruct Ht as [Hne Ht].
  rewrite rows_cons, topic_contexts_app, topic_contexts_article, IH by done.
  by rewrite decide_False by done.
Qed.

(** X9.  When the articles of the document have distinct titles, the
    contexts that the class finds for the title of an article are the
    contexts of the paragraphs of that article, in their order. *)
Theorem topic_contexts_of_rows (squad_data : list Squad.article)
    (a : Squad.article) :
  NoDup (Squad.title <$> squad_data) →
  a ∈ squad_data →
  RAGLLM.topic_contexts (Squad.rows squad_data) (Squad.title a)
  = Squad.context <$> Squad.paragraphs a.
Proof.
  induction squad_data as [|a0 l IH]; intros Hnd Ha;
    [by apply elem_of_nil in Ha|].
  rewrite fmap_cons in Hnd. apply NoDup_cons in Hnd as [Ha0 Hnd].
  rewrite rows_cons, topic_contexts_app, topic_contexts_article.
  apply elem_of_cons in Ha as [->|Ha].
  - rewrite decide_True by done.
    by rewrite topic_contexts_rows_fresh, app_nil_r.
  - rewrite decide_False.
    + by rewrite IH.
    + intros Heq. apply Ha0. rewrite Heq. apply list_elem_of_fmap.
      by exists a.
Qed.

Lemma topic_contexts_of_rows_witness :
  RAGLLM.topic_contexts (Squad.rows Demo.squad_data) "Florida"
  = ["Florida means flowery land"; "Florida is a state"].
Proof.
  apply (topic_contexts_of_rows Demo.squad_data
           (Squad.Article "Florida"
              [ Squad.Paragraph "Florida means flowery land";
                Squad.Paragraph "Florida is a state" ])).
  - by apply (bool_decide_unpack _).
  - left.
Defined.

Lemma elem_of_rows (squad_data : list Squad.article) (r : Pd.row) :
  r ∈ Squad.rows squad_data ↔
  ∃ a p, a ∈ squad_data ∧ p ∈ Squad.paragraphs a ∧
         r = Pd.Row (Squad.title a) (Squad.context p).
Proof.
  unfold Squad.rows. rewrite list_elem_of_bind. split.
  - intros (a & (p & Hr & Hp)%list_elem_of_bind & Ha).
    apply list_elem_of_singleton in Hr. by exists a, p.
  - intros (a & p & Ha & Hp & ->). exists a. split; [|done].
    apply list_elem_of_bind. exists p. split; [|done].
    by apply list_elem_of_singleton.
Qed.

(** X10.  From the document to the retriever: when flattening the
    document, building the class and running the two stages gives a
    title and a context, the context is that of a paragraph of an article
    of the document whose title is the title returned. *)
Theorem retrieve_paragraph `{M : Models} (squad_data : list Squad.article)
    (q bt bp : string) :
  (df ← Squad.flatten (length squad_data) squad_data;
   s ← RAGLLM.__init__ df;
   RAGLLM.retrieve s q) = Ok (bt, bp) →
  ∃ a p, a ∈ squad_data ∧ p ∈ Squad.paragraphs a ∧
         Squad.title a = bt ∧ Squad.context p = bp.
Proof.
  rewrite flatten_take, take_ge, result_bind_Ok, init_Ok, result_bind_Ok
    by done.
  intros (i & k & _ & _ & _ & Hbp)%retrieve_Ok. simpl in Hbp.
  apply list_elem_of_lookup_2, elem_of_topic_contexts in Hbp
    as (r & (a & p & Ha & Hp & ->)%elem_of_rows & Ht & Hc).
  by exists a, p.
Qed.

Lemma retrieve_paragraph_witness :
  ∃ a p, a ∈ Demo.squad_data ∧ p ∈ Squad.paragraphs a ∧
         Squad.title a = "Alaska" ∧
         Squad.context p = "Alaska is the largest state".
Proof.
  apply (retrieve_paragraph (M:=Demo.models) Demo.squad_data "abcdef").
  by vm_compute.
Defined.

(** ** A query cell *)


